(** * github-helpers: the component matrix and the multisig hierarchy

    A shallow embedding of

    - [src/helpers/generate-component-matrix.ts]
      ([sourceLocation], [sourceLocationDir], [findRoot],
      [generateComponentMatrix]) and
    - [src/helpers/backstage-multisig-metrics.ts]
      (class [MultisigsCollector]),

    followed by the properties of the two pipelines.

    Conventions of the embedding.

    - A JavaScript string is a [string] (a sequence of bytes); [undefined]
      is [None]; an array is a [list].
    - A function that can throw, or loop for ever, returns an [outcome]:
      [Returns v], [Throws e], or [OutOfFuel] when the loop of [findRoot]
      has used up the iterations it was given.
    - What the two files import from npm packages and from the platform
      ([stringifyEntityRef], [parseEntityRef],
      [String.prototype.localeCompare], [fs.existsSync]) is a variable
      of a section: a theorem holds for every implementation.  The
      answers of the catalog and of [getChangedFiles] are arguments.
      [Module Instances] gives implementations for the worked inputs of
      [Module Examples]; [path.join] is modelled after Node's POSIX
      implementation. *)

From Stdlib Require Import String Ascii ZArith List Permutation Sorted OrderedTypeEx.
From stdpp Require Import base tactics option list strings gmap sorting.

Open Scope string_scope.

(** ** Outcomes of JavaScript computations *)

(** The exceptions the two files can raise.  Reading a property of
    [undefined] raises a [TypeError] whose message names the property
    only: "Cannot read properties of undefined (reading 'p')".  The other
    constructor is for what the imported [parseEntityRef] throws. *)
Inductive JsError : Type :=
  | TypeError_reading (property : string)
  | LibraryError (message : string).

Inductive outcome (A : Type) : Type :=
  | Returns (a : A)
  | Throws (e : JsError)
  | OutOfFuel.
Arguments Returns {A} a.
Arguments Throws {A} e.
Arguments OutOfFuel {A}.

Global Instance outcome_ret : MRet outcome := fun A a => Returns a.
Global Instance outcome_bind : MBind outcome := fun A B f m =>
  match m with
  | Returns a => f a
  | Throws e => Throws e
  | OutOfFuel => OutOfFuel
  end.

(** [x!.p] of TypeScript: the [!] is erased by the compiler, so the read
    throws at run time when [x] is [undefined]. *)
Definition deref {A : Type} (property : string) (x : option A) : outcome A :=
  match x with
  | Some a => Returns a
  | None => Throws (TypeError_reading property)
  end.

(** ** Strings and arrays of JavaScript *)

(** [s.split(sep)] for a one-character separator: never the empty array. *)
Fixpoint split (sep : ascii) (s : string) : list string :=
  match s with
  | EmptyString => [EmptyString]
  | String c s' =>
      if Ascii.eqb c sep then EmptyString :: split sep s'
      else match split sep s' with
           | [] => [String c EmptyString]
           | w :: ws => String c w :: ws
           end
  end.

(** [a.join(sep)]. *)
Definition join (sep : string) (a : list string) : string := String.concat sep a.

(** [s.startsWith(p)]. *)
Definition startsWith (s p : string) : bool := String.prefix p s.

(** [a.includes(x)] on an array of strings. *)
Definition includes (x : string) (a : list string) : bool :=
  existsb (String.eqb x) a.

(** [a.slice(start, -1)]: from index [start] up to, not including, the
    last element. *)
Definition slice_to_last {A : Type} (start : nat) (a : list A) : list A :=
  drop start (removelast a).

(** [a.pop()] for its effect on [a]; nothing happens on the empty array. *)
Definition pop {A : Type} (a : list A) : list A := removelast a.

(** [x || y] on strings: the empty string and [undefined] are falsy. *)
Definition or_else (x : option string) (y : string) : string :=
  match x with
  | Some s => if String.eqb s "" then y else s
  | None => y
  end.

(** ** [path.join] of Node (POSIX) *)

Module path.

(** [normalizeString]: the segments of the path are read from left to
    right; empty segments and ["."] are dropped, [".."] removes the
    segment before it unless there is none or it is [".."] itself.  The
    result is kept in reverse. *)
Definition normalize_step (allowAboveRoot : bool) (res : list string) (seg : string)
  : list string :=
  if String.eqb seg "" || String.eqb seg "." then res
  else if String.eqb seg ".." then
    match res with
    | [] => if allowAboveRoot then [".."] else []
    | last :: rest =>
        if String.eqb last ".." then
          (if allowAboveRoot then ".." :: res else res)
        else rest
    end
  else seg :: res.

Definition normalizeString (allowAboveRoot : bool) (p : string) : string :=
  String.concat "/" (rev (fold_left (normalize_step allowAboveRoot) (split "/" p) [])).

Definition isAbsolute (p : string) : bool :=
  match p with
  | String c _ => Ascii.eqb c "/"
  | EmptyString => false
  end.

Fixpoint trailingSeparator (p : string) : bool :=
  match p with
  | EmptyString => false
  | String c EmptyString => Ascii.eqb c "/"
  | String _ p' => trailingSeparator p'
  end.

Definition normalize (p : string) : string :=
  if String.eqb p "" then "."
  else
    let q := normalizeString (negb (isAbsolute p)) p in
    if String.eqb q "" then
      (if isAbsolute p then "/" else if trailingSeparator p then "./" else ".")
    else
      let q' := if trailingSeparator p then q ++ "/" else q in
      if isAbsolute p then "/" ++ q' else q'.

(** [path.join(...args)]: the non-empty arguments joined by ["/"], then
    normalized. *)
Definition join (args : list string) : string :=
  match List.filter (fun a => negb (String.eqb a "")) args with
  | [] => "."
  | parts => normalize (String.concat "/" parts)
  end.

End path.

(** ** Catalog entities ([Entity] of [@backstage/catalog-model]) *)

Record Relation : Type := mkRelation {
  type : string;
  targetRef : string
}.

Record Metadata : Type := mkMetadata {
  name : string;
  namespace : option string;
  title : option string;
  tags : option (list string);
  annotations : option (gmap string string)
}.

(** The fields of [spec] that the two files read. *)
Record Spec : Type := mkSpec {
  spec_type : option string;
  spec_system : option string;
  spec_owner : option string
}.

Record Entity : Type := mkEntity {
  kind : string;
  metadata : Metadata;
  spec : option Spec;
  relations : option (list Relation)
}.

Global Instance Relation_eq_dec : EqDecision Relation.
Proof. solve_decision. Defined.
Global Instance Metadata_eq_dec : EqDecision Metadata.
Proof. solve_decision. Defined.
Global Instance Spec_eq_dec : EqDecision Spec.
Proof. solve_decision. Defined.
Global Instance Entity_eq_dec : EqDecision Entity.
Proof. solve_decision. Defined.

(** [e.relations || []]. *)
Definition relations_or_empty (e : Entity) : list Relation :=
  default [] (relations e).

(** [item.spec?.type]. *)
Definition spec_type_of (e : Entity) : option string :=
  s ← spec e; spec_type s.

(** [x === 'literal'] for an optional string [x]. *)
Definition is_string (x : option string) (literal : string) : bool :=
  match x with
  | Some s => String.eqb s literal
  | None => false
  end.

(** * generate-component-matrix.ts *)

Module Matrix.

(** One entry of what [getChangedFiles] returns. *)
Record ChangedFile : Type := mkChangedFile { file : string }.

(** One element of [include]. *)
Record Row : Type := mkRow {
  row_name : string;
  row_tags : list string;
  row_path : string;
  nodeRoot : string;
  runSlither : bool
}.

(** Lines 31-35. *)
Definition sourceLocation (entity : Entity) : option string :=
  match annotations (metadata entity) with
  | None => None
  | Some a => a !! "backstage.io/source-location"
  end.

(** Lines 37-40. *)
Definition sourceLocationDir (entity : Entity) : outcome string :=
  loc ← deref "split" (sourceLocation entity);
  mret (join "/" (slice_to_last 7 (split "/" loc))).

(** Lines 87-89: the candidates. *)
Definition contractItems (repoUrl : string) (items : list Entity) : list Entity :=
  List.filter (fun item => is_string (spec_type_of item) "contract")
    (List.filter
       (fun item =>
          match sourceLocation item with
          | Some loc => startsWith loc ("url:" ++ repoUrl)
          | None => false
          end)
       items).

(** Lines 100-105.  [startsWith(undefined)] looks for the text
    "undefined". *)
Definition changedContracts (candidates : list Entity) (changedFiles : list ChangedFile)
  : list Entity :=
  List.filter
    (fun contractItem =>
       existsb
         (fun f =>
            let loc := default "undefined" (sourceLocation contractItem) in
            startsWith (file f) loc)
         changedFiles)
    candidates.

(** Line 109. *)
Definition forceAll (eventName : option string) : bool :=
  negb (is_string eventName "pull_request").

(** Line 117, after the dereference of [tags]. *)
Definition isSolidity (item_tags : list string) : bool :=
  negb (includes "near" item_tags).

(** Line 118, the right operand of [&&]: whether the candidate counts as
    changed.  [changed.includes(item)] compares object identities; the
    candidates are compared by value here, which gives the same answer
    for every element of the array [changed] was filtered from
    (lemma [includes_changedContracts]). *)
Definition impacted (force : bool) (changed : list Entity) (item : Entity) : bool :=
  force || bool_decide (item ∈ changed).

Section WithFileSystem.

(** [fs.existsSync]. *)
Variable existsSync : string -> bool.

(** Lines 50-63.  One iteration tests [dirs], and the [finally] block
    pops the last element on both ways out of the [try]: when the test
    fails and the loop goes on, and when it succeeds and [break] leaves
    the loop.  The loop condition is [dirs.length >= 0]. *)
Fixpoint findRoot_loop (fuel : nat) (rootFile : string) (dirs : list string)
  : outcome (list string) :=
  match fuel with
  | O => OutOfFuel
  | S fuel' =>
      if (0 <=? length dirs)%nat then
        let testFile := path.join ("./" :: dirs ++ [rootFile]) in
        if existsSync testFile then Returns (pop dirs)
        else findRoot_loop fuel' rootFile (pop dirs)
      else Returns dirs
  end.

(** Lines 46-68. *)
Definition findRoot (fuel : nat) (fileName rootFile : string) : outcome string :=
  dirs ← findRoot_loop fuel rootFile (split "/" fileName);
  mret (if (0 <? length dirs)%nat then join "/" dirs else "./").

(** Lines 115-127: the callback of [contractItems.map]. *)
Definition matrixRow (fuel : nat) (force : bool) (changed : list Entity) (item : Entity)
  : outcome Row :=
  item_tags ← deref "includes" (tags (metadata item));
  let runSlither := isSolidity item_tags && impacted force changed item in
  p ← sourceLocationDir item;
  p' ← sourceLocationDir item;
  root ← findRoot fuel p' "package.json";
  mret {| row_name := name (metadata item);
          row_tags := item_tags;
          row_path := p;
          nodeRoot := root;
          runSlither := runSlither |}.

(** Lines 70-129, after the two requests: [items] is what the catalog
    returned, [changedFiles] what [getChangedFiles] returned; the result
    is the [include] array. *)
Definition generateComponentMatrix (fuel : nat) (repoUrl : string)
    (eventName : option string) (items : list Entity) (changedFiles : list ChangedFile)
  : outcome (list Row) :=
  let candidates := contractItems repoUrl items in
  let changed := changedContracts candidates changedFiles in
  mapM (matrixRow fuel (forceAll eventName) changed) candidates.

End WithFileSystem.

End Matrix.

(** * backstage-multisig-metrics.ts *)

Module Multisigs.

(** What [parseEntityRef] returns. *)
Record CompoundEntityRef : Type := mkCompoundEntityRef {
  ref_kind : string;
  ref_namespace : string;
  ref_name : string
}.

Record MultisigSigner : Type := mkMultisigSigner {
  signer : Entity;
  owner : option Entity
}.

Record MultisigInfo : Type := mkMultisigInfo {
  entity : Entity;
  signers : list MultisigSigner
}.

Record ComponentMultisigs : Type := mkComponentMultisigs {
  cm_title : string;
  component : Entity;
  multisigs : list MultisigInfo
}.

Record SystemComponents : Type := mkSystemComponents {
  sc_title : string;
  system : Entity;
  components : list ComponentMultisigs
}.

(** A call of a library function that returns or throws. *)
Definition call {A : Type} (r : JsError + A) : outcome A :=
  match r with
  | inl e => Throws e
  | inr a => Returns a
  end.

(** [a.filter(p)] with a callback that can throw. *)
Fixpoint filterM {A : Type} (p : A -> outcome bool) (a : list A) : outcome (list A) :=
  match a with
  | [] => mret []
  | x :: a' =>
      b ← p x;
      rest ← filterM p a';
      mret (if b : bool then x :: rest else rest)
  end.

(** [Set.prototype.add] on the elements in insertion order. *)
Definition add_to_set {A : Type} `{EqDecision A} (seen : list A) (x : A) : list A :=
  if bool_decide (x ∈ seen) then seen else (seen ++ [x])%list.

(** [[...new Set(a)]]: the elements in the order of their first
    occurrence. *)
Definition distinct {A : Type} `{EqDecision A} (a : list A) : list A :=
  fold_left add_to_set a [].

Section WithCatalogModel.

(** [stringifyEntityRef] and [parseEntityRef] of
    [@backstage/catalog-model], and [String.prototype.localeCompare]. *)
Variable stringifyEntityRef : Entity -> string.
Variable parseEntityRef : string -> JsError + CompoundEntityRef.
Variable localeCompare : string -> string -> Z.

(** ** [Array.prototype.sort] with a comparator

    The sort of ECMAScript is stable, and with a consistent comparator
    every stable sort returns the same array: the one of this insertion
    sort, which puts [x] before the first [y] with [cmp x y <= 0]. *)
Fixpoint insert_sorted {A : Type} (cmp : A -> A -> Z) (x : A) (a : list A) : list A :=
  match a with
  | [] => [x]
  | y :: a' => if (cmp x y <=? 0)%Z then x :: y :: a' else y :: insert_sorted cmp x a'
  end.

Definition sort {A : Type} (cmp : A -> A -> Z) (a : list A) : list A :=
  foldr (insert_sorted cmp) [] a.

(** [a.sort((x, y) => key(x).localeCompare(key(y)))], where the
    evaluation of [key] can throw.  The comparator is not called on an
    array of fewer than two elements; on a longer array every element
    is compared at least once, so the sort throws as soon as the key of
    some element does. *)
Definition sort_by {A : Type} (key : A -> outcome string) (a : list A) : outcome (list A) :=
  match a with
  | [] | [_] => Returns a
  | _ =>
      keyed ← mapM (fun x => k ← key x; mret (k, x)) a;
      mret ((sort (fun p q => localeCompare p.1 q.1) keyed).*2)
  end.

(** Lines 53-55.  [sort] leaves [undefined] elements out of the
    comparisons and puts them last. *)
Definition normalizeEntities (refs : list (option string)) : list (option string) :=
  let u := distinct refs in
  ((Some <$> sort localeCompare (omap id u))
     ++ (if bool_decide (None ∈ u) then [None] else []))%list.

Section WithEntities.

(** The fields [entities] and [multisigs] of the collector. *)
Variable entities : list Entity.
Variable the_multisigs : list Entity.

(** [this.entities.find(item => stringifyEntityRef(item) === ref)]. *)
Definition find_ref (ref : option string) : option Entity :=
  List.find (fun item => bool_decide (Some (stringifyEntityRef item) = ref)) entities.

(** Line 96: the callback of [filter]. *)
Definition owned_by_signer (r : Relation) : outcome bool :=
  if String.eqb (type r) "ownedBy" then
    p ← call (parseEntityRef (targetRef r));
    mret (negb (String.eqb (ref_kind p) "group"))
  else mret false.

(** Lines 97-104: the callback of [map]. *)
Definition resolve_signer (r : Relation) : outcome MultisigSigner :=
  let signer := find_ref (Some (targetRef r)) in
  s ← deref "spec" signer;
  sp ← deref "owner" (spec s);
  let owner := find_ref (spec_owner sp) in
  mret {| signer := s; owner := owner |}.

(** Line 105: the key of the comparator, [x.owner.metadata.name]. *)
Definition owner_name (a : MultisigSigner) : outcome string :=
  o ← deref "metadata" (owner a);
  mret (name (metadata o)).

(** Lines 94-106. *)
Definition collectSigners (multisig : Entity) : outcome (list MultisigSigner) :=
  owned ← filterM owned_by_signer (relations_or_empty multisig);
  rows ← mapM resolve_signer owned;
  sort_by owner_name rows.

(** Line 84: the callback of [filter]. *)
Definition provided_by (componentRef : Relation) (item : Entity) : bool :=
  existsb
    (fun r => String.eqb (type r) "apiProvidedBy"
              && String.eqb (targetRef r) (targetRef componentRef))
    (relations_or_empty item).

(** Lines 83-88, for one component reference. *)
Definition multisigs_of (componentRef : Relation) : outcome (list MultisigInfo) :=
  mapM
    (fun ms => s ← collectSigners ms; mret {| entity := ms; signers := s |})
    (List.filter (provided_by componentRef) the_multisigs).

(** Line 75: the callback of [filter]. *)
Definition has_part_component (r : Relation) : outcome bool :=
  if String.eqb (type r) "hasPart" then
    p ← call (parseEntityRef (targetRef r));
    mret (String.eqb (ref_kind p) "component")
  else mret false.

(** Lines 78-90: the callback of [map]. *)
Definition resolve_component (componentRef : Relation) : outcome ComponentMultisigs :=
  let component := find_ref (Some (targetRef componentRef)) in
  c ← deref "metadata" component;
  let title := or_else (title (metadata c)) (name (metadata c)) in
  ms ← multisigs_of componentRef;
  mret {| cm_title := title; component := c; multisigs := ms |}.

(** Lines 73-92.  The argument is [undefined] when the caller's [find]
    found nothing. *)
Definition collectComponents (system : option Entity) : outcome (list ComponentMultisigs) :=
  sys ← deref "relations" system;
  componentRefs ← filterM has_part_component (relations_or_empty sys);
  rows ← mapM resolve_component componentRefs;
  sort_by (fun a => mret (name (metadata (component a)))) rows.

(** Lines 60-69: the callback of [map]. *)
Definition resolve_system (systemRef : option string) : outcome SystemComponents :=
  let system := find_ref systemRef in
  cs ← collectComponents system;
  sys ← deref "metadata" system;
  mret {| sc_title := or_else (title (metadata sys)) (name (metadata sys));
          system := sys;
          components := cs |}.

(** Line 58: the callback of [map], [item.spec!.system!]. *)
Definition system_of (item : Entity) : outcome (option string) :=
  s ← deref "system" (spec item);
  mret (spec_system s).

(** Lines 57-71. *)
Definition collectSystems : outcome (list SystemComponents) :=
  refs ← mapM system_of the_multisigs;
  rows ← mapM resolve_system (normalizeEntities refs);
  sort_by (fun a => mret (name (metadata (system a)))) rows.

End WithEntities.

(** Line 49: the callback of [filter]. *)
Definition is_multisig (item : Entity) : bool :=
  String.eqb (kind item) "API" && is_string (spec_type_of item) "multisig-deployment".

(** Lines 47-51: the constructor; the result is the field
    [systemComponents]. *)
Definition MultisigsCollector (entities : list Entity) : outcome (list SystemComponents) :=
  collectSystems entities (List.filter is_multisig entities).

Section WithMultisigSpec.

(** [spec.multisig], a field of [spec] that the record [Spec] leaves
    out: the collector does not read it, the export copies it. *)
Variable Json : Type.
Variable spec_multisig : Spec -> option Json.

(** One element of the exported array. *)
Record MultisigExport : Type := mkMultisigExport {
  export_name : string;
  network : option string;
  export_spec : option Json
}.

(** Lines 120-126: the callback of the inner [map].  [a[0]] is
    [undefined] on the empty array. *)
Definition export_of (ms : MultisigInfo) : MultisigExport :=
  {| export_name := name (metadata (entity ms));
     network := head (split "-" (name (metadata (entity ms))));
     export_spec := s ← spec (entity ms); spec_multisig s |}.

(** Lines 114-135, between the request and the write: [entities] is
    what [getBackstageEntities] returned, the result is the array that
    is serialized to [output_path]. *)
Definition collectMultisigs (entities : list Entity) : outcome (list MultisigExport) :=
  systemComponents ← MultisigsCollector entities;
  mret (systemComponents ≫= fun system =>
          components system ≫= fun component =>
            export_of <$> multisigs component).

End WithMultisigSpec.

End WithCatalogModel.

End Multisigs.

(** * Instances of the imported functions, for the worked examples *)

Module Instances.

(** [toLocaleLowerCase('en-US')] on ASCII text. *)
Definition lower_ascii (c : ascii) : ascii :=
  let n := nat_of_ascii c in
  if (65 <=? n)%nat && (n <=? 90)%nat then ascii_of_nat (n + 32) else c.

Fixpoint toLowerCase (s : string) : string :=
  match s with
  | EmptyString => EmptyString
  | String c s' => String (lower_ascii c) (toLowerCase s')
  end.

(** [stringifyEntityRef] of the library on an entity:
    [kind:namespace/name] in lower case, the namespace being "default"
    when the entity has none. *)
Definition stringifyEntityRef (e : Entity) : string :=
  toLowerCase (kind e) ++ ":"
    ++ toLowerCase (default "default" (namespace (metadata e))) ++ "/"
    ++ toLowerCase (name (metadata e)).

(** [parseEntityRef] of the library on a string, without a context:
    the text before the first [:] is the kind, the text between it and
    the first [/] the namespace, the rest the name; a missing or empty
    part other than the namespace is an error. *)
Definition parseEntityRef (ref : string) : JsError + Multisigs.CompoundEntityRef :=
  if String.eqb ref "" then inl (LibraryError "Entity reference must not be empty")
  else
    let slashI := String.index 0 "/" ref in
    let colonI :=
      match String.index 0 ":" ref, slashI with
      | Some c, Some s => if (s <? c)%nat then None else Some c
      | c, _ => c
      end in
    let after_colon := match colonI with Some c => S c | None => 0 end in
    let after_slash := match slashI with Some s => S s | None => 0 end in
    let ref_kind := (fun c => String.substring 0 c ref) <$> colonI in
    let ref_namespace :=
      (fun s => String.substring after_colon (s - after_colon) ref) <$> slashI in
    let start := Nat.max after_colon after_slash in
    let ref_name := String.substring start (String.length ref - start) ref in
    if is_string ref_kind "" || is_string ref_namespace "" || String.eqb ref_name "" then
      inl (LibraryError ("Entity reference " ++ ref ++ " was not on the form [<kind>:][<namespace>/]<name>"))
    else
      match ref_kind with
      | None => inl (LibraryError ("Entity reference " ++ ref ++ " had missing or empty kind"))
      | Some k =>
          inr {| Multisigs.ref_kind := k;
                 Multisigs.ref_namespace := default "default" ref_namespace;
                 Multisigs.ref_name := ref_name |}
      end.

(** A comparison of strings byte by byte.  It gives the sign of
    [localeCompare] on strings of lower-case ASCII letters and digits,
    the only ones the examples compare. *)
Definition localeCompare (a b : string) : Z :=
  match String.compare a b with
  | Lt => (-1)%Z
  | Eq => 0%Z
  | Gt => 1%Z
  end.

(** A comparison with ties, as the collation behind [localeCompare] has
    them: the control characters up to U+0008 are ignored, and what is
    left is compared byte by byte. *)
Fixpoint without_controls (s : string) : string :=
  match s with
  | EmptyString => EmptyString
  | String c s' =>
      if (nat_of_ascii c <=? 8)%nat then without_controls s'
      else String c (without_controls s')
  end.

Definition localeCompare_ignoring_controls (a b : string) : Z :=
  localeCompare (without_controls a) (without_controls b).

End Instances.

(** * Worked inputs *)

Module Examples.

Import Matrix.

(** A contract of the repository [https://github.com/o/r] whose sources
    are in the directory [contracts]. *)
Definition contract_metadata (tag_list : option (list string)) (location : option string)
  : Metadata :=
  {| name := "bridge";
     namespace := None;
     title := None;
     tags := tag_list;
     annotations := (fun loc => {[ "backstage.io/source-location" := loc ]}) <$> location |}.

Definition contract (tag_list : option (list string)) (location : option string) : Entity :=
  {| kind := "API";
     metadata := contract_metadata tag_list location;
     spec := Some {| spec_type := Some "contract"; spec_system := None; spec_owner := None |};
     relations := None |}.

Definition repoUrl : string := "https://github.com/o/r".

Definition in_contracts : Entity :=
  contract (Some ["ethereum"]) (Some "url:https://github.com/o/r/tree/main/contracts/").

Definition in_contracts2 : Entity :=
  contract (Some ["ethereum"]) (Some "url:https://github.com/o/r/tree/main/contracts2/").

Definition without_tags : Entity :=
  contract None (Some "url:https://github.com/o/r/tree/main/contracts/").

Definition without_annotation : Entity := contract (Some ["ethereum"]) None.

Definition Foo_changed : list ChangedFile := [ {| file := "contracts/Foo.sol" |} ].

Definition near_contract : Entity :=
  contract (Some ["near"; "rust"]) (Some "url:https://github.com/o/r/tree/main/contracts/").

(** The row of a contract of the examples, in [directory] and with the
    tags [row_tag_list], when the root found is the repository's. *)
Definition row_in (directory : string) (row_tag_list : list string) (flag : bool) : Row :=
  {| row_name := "bridge"; row_tags := row_tag_list; row_path := directory;
     nodeRoot := "./"; runSlither := flag |}.

(** File systems. *)
Definition everywhere : string -> bool := fun _ => true.
Definition nowhere : string -> bool := fun _ => false.
Definition only (p : string) : string -> bool := String.eqb p.

(** The catalog of the scenario: system [s1] has the component [c1],
    which provides the multisig deployment [a1]; [a1] is owned by the
    user [u1], whose owner is [o1], and by the group [g1]. *)
Definition plain (entity_name : string) (entity_title : option string) : Metadata :=
  {| name := entity_name; namespace := None; title := entity_title;
     tags := None; annotations := None |}.

Definition S1 : Entity :=
  {| kind := "System"; metadata := plain "s1" None; spec := None;
     relations := Some [ {| type := "hasPart"; targetRef := "component:default/c1" |} ] |}.

Definition C1 : Entity :=
  {| kind := "Component"; metadata := plain "c1" None; spec := None; relations := None |}.

Definition deployment (entity_name system_ref : string) (signer_refs : list string) : Entity :=
  {| kind := "API";
     metadata := plain entity_name None;
     spec := Some {| spec_type := Some "multisig-deployment";
                     spec_system := Some system_ref;
                     spec_owner := None |};
     relations :=
       Some ({| type := "apiProvidedBy"; targetRef := "component:default/c1" |}
             :: ((fun r => {| type := "ownedBy"; targetRef := r |}) <$> signer_refs)) |}.

Definition A1 : Entity :=
  deployment "a1" "system:default/s1" ["user:default/u1"; "group:default/g1"].

Definition A2 : Entity := deployment "a2" "system:default/s1" ["user:default/u1"].

Definition user (entity_name : string) (owner_ref : option string) : Entity :=
  {| kind := "User"; metadata := plain entity_name None;
     spec := Some {| spec_type := None; spec_system := None; spec_owner := owner_ref |};
     relations := None |}.

Definition U1 : Entity := user "u1" (Some "user:default/o1").
Definition O1 : Entity := user "o1" None.

Definition G1 : Entity :=
  {| kind := "Group"; metadata := plain "g1" None; spec := None; relations := None |}.

(** A second entity with the reference of [S1]. *)
Definition S1_again : Entity :=
  {| kind := "System"; metadata := plain "s1" (Some "Another s1"); spec := None;
     relations := None |}.

(** Deployments whose system is not in the catalog. *)
Definition A3 : Entity := deployment "a3" "system:default/s3" [].
Definition A4 : Entity := deployment "a4" "system:default/s4" [].

Definition collect : list Entity -> outcome (list Multisigs.SystemComponents) :=
  Multisigs.MultisigsCollector
    Instances.stringifyEntityRef Instances.parseEntityRef Instances.localeCompare.

Definition info (ms : Entity) (o : option Entity) : Multisigs.MultisigInfo :=
  {| Multisigs.entity := ms;
     Multisigs.signers := [ {| Multisigs.signer := U1; Multisigs.owner := o |} ] |}.

(** Two systems whose names differ by a control character, and a
    deployment for each. *)
Definition system_named (entity_name : string) : Entity :=
  {| kind := "System"; metadata := plain entity_name None; spec := None;
     relations := Some [] |}.

Definition Sa : Entity := system_named "a".
Definition Sb : Entity := system_named (String "a" (String "001" "")).
Definition Aa : Entity := deployment "aa" "system:default/a" [].
Definition Ab : Entity :=
  deployment "ab" ("system:default/a" ++ String "001" "") [].

Definition collect_ignoring_controls
  : list Entity -> outcome (list Multisigs.SystemComponents) :=
  Multisigs.MultisigsCollector
    Instances.stringifyEntityRef Instances.parseEntityRef
    Instances.localeCompare_ignoring_controls.

Definition system_without_components (sys : Entity) : Multisigs.SystemComponents :=
  {| Multisigs.sc_title := name (metadata sys);
     Multisigs.system := sys;
     Multisigs.components := [] |}.

(** The hierarchy of the scenario, for the artifacts [ms] of [c1]. *)
Definition hierarchy (ms : list Multisigs.MultisigInfo) : list Multisigs.SystemComponents :=
  [ {| Multisigs.sc_title := "s1";
       Multisigs.system := S1;
       Multisigs.components :=
         [ {| Multisigs.cm_title := "c1";
              Multisigs.component := C1;
              Multisigs.multisigs := ms |} ] |} ].

End Examples.

(** * The vocabulary of the properties *)

(** Two outcomes are related when both return, with related values, or
    neither returns. *)
Definition outcome_rel {A B : Type} (R : A -> B -> Prop) (m1 : outcome A) (m2 : outcome B)
  : Prop :=
  match m1, m2 with
  | Returns a, Returns b => R a b
  | Returns _, _ | _, Returns _ => False
  | _, _ => True
  end.

(** The computation ends: it returns or throws. *)
Definition ends {A : Type} (m : outcome A) : Prop := m <> OutOfFuel.

(** The test a throwing callback of [filter] comes to, and the key a
    throwing key of [sort] comes to. *)
Definition test_of {A : Type} (p : A -> outcome bool) (x : A) : bool :=
  match p x with
  | Returns b => b
  | _ => false
  end.

Definition key_of {A : Type} (key : A -> outcome string) (x : A) : string :=
  match key x with
  | Returns k => k
  | _ => ""
  end.

(** [x] is not after [y] for the comparator [cmp]. *)
Definition cmp_le {A : Type} (cmp : A -> A -> Z) (x y : A) : Prop := (cmp x y <= 0)%Z.

(** The character [c] occurs in [s]. *)
Fixpoint has_char (c : ascii) (s : string) : bool :=
  match s with
  | EmptyString => false
  | String c' s' => Ascii.eqb c' c || has_char c s'
  end.

(** The two tests of [contractItems] on one entity. *)
Definition is_candidate (repoUrl : string) (item : Entity) : bool :=
  match Matrix.sourceLocation item with
  | Some loc => startsWith loc ("url:" ++ repoUrl)
  | None => false
  end
  && is_string (spec_type_of item) "contract".

Module MultisigsSpec.

Import Multisigs.

(** [item.spec.system] of a multisig deployment. *)
Definition system_ref (item : Entity) : option string := s ← spec item; spec_system s.

(** The errors of the collector: the [TypeError] of reading one of four
    properties on [undefined], and what [parseEntityRef] throws. *)
Definition collector_error (parseEntityRef : string -> JsError + CompoundEntityRef)
    (e : JsError) : Prop :=
  (exists p, e = TypeError_reading p /\ p ∈ ["relations"; "metadata"; "spec"; "owner"])
  \/ (exists ref, parseEntityRef ref = inl e).

(** Whatever [m] throws satisfies [P]. *)
Definition throws_only {A : Type} (P : JsError -> Prop) (m : outcome A) : Prop :=
  forall e, m = Throws e -> P e.

(** The rows are in the order of their owners' names. *)
Definition by_owner_name (localeCompare : string -> string -> Z) (a b : MultisigSigner)
  : Prop :=
  forall oa ob,
    owner a = Some oa -> owner b = Some ob ->
    (localeCompare (name (metadata oa)) (name (metadata ob)) <= 0)%Z.

(** No two different strings among [refs] compare equal. *)
Definition no_ties (localeCompare : string -> string -> Z) (refs : list (option string))
  : Prop :=
  forall a b,
    Some a ∈ refs -> Some b ∈ refs ->
    (localeCompare a b <= 0)%Z -> (localeCompare b a <= 0)%Z -> a = b.

(** The systems, and the components, are in the order of their names. *)
Definition by_system_name (localeCompare : string -> string -> Z) (a b : SystemComponents)
  : Prop :=
  (localeCompare (name (metadata (system a))) (name (metadata (system b))) <= 0)%Z.

Definition by_component_name (localeCompare : string -> string -> Z)
    (a b : ComponentMultisigs) : Prop :=
  (localeCompare (name (metadata (component a))) (name (metadata (component b))) <= 0)%Z.

(** Two hierarchies with the same systems and components in the same
    order, and under each component the same artifacts in some order. *)
Definition same_component (a b : ComponentMultisigs) : Prop :=
  cm_title a = cm_title b /\ component a = component b /\ multisigs a ≡ₚ multisigs b.

Definition same_system (a b : SystemComponents) : Prop :=
  sc_title a = sc_title b /\ system a = system b
  /\ Forall2 same_component (components a) (components b).

End MultisigsSpec.

(** * Properties *)

(** ** Outcomes *)

Lemma bind_Returns {A B : Type} (m : outcome A) (f : A -> outcome B) (b : B) :
  m ≫= f = Returns b <-> exists a, m = Returns a /\ f a = Returns b.
Proof.
  destruct m as [a|e|]; simpl; split.
  - eauto.
  - intros (a' & [= <-] & H). exact H.
  - discriminate.
  - intros (a' & [=] & _).
  - discriminate.
  - intros (a' & [=] & _).
Qed.

Section OutcomeFacts.

Context {A B : Type}.
Implicit Types (f g : A -> outcome B) (l : list A) (k : list B).

Lemma mapM_nil f : mapM f [] = Returns [].
Proof. reflexivity. Qed.

Lemma mapM_cons f x l :
  mapM f (x :: l) = y ← f x; k ← mapM f l; mret (y :: k).
Proof. reflexivity. Qed.

Lemma mapM_ext_in f g l :
  (forall x, x ∈ l -> f x = g x) -> mapM f l = mapM g l.
Proof.
  induction l as [|x l IH]; intros Hfg; [reflexivity|].
  rewrite !mapM_cons, Hfg by left.
  rewrite IH; [reflexivity|]. intros y Hy. apply Hfg. by right.
Qed.

Lemma mapM_Returns f l k :
  mapM f l = Returns k <-> Forall2 (fun x y => f x = Returns y) l k.
Proof.
  revert k. induction l as [|x l IH]; intros k.
  - rewrite mapM_nil. split.
    + intros [= <-]. constructor.
    + intros H. by inversion H.
  - rewrite mapM_cons. split.
    + intros H. apply bind_Returns in H as (y & Hy & H).
      destruct (mapM f l) as [k'| |] eqn:Hk; simpl in H; try discriminate.
      injection H as <-. constructor; [exact Hy|]. by apply IH.
    + intros H. inversion H as [|? y ? k' Hy Hk]; subst.
      rewrite Hy. simpl. apply IH in Hk. rewrite Hk. reflexivity.
Qed.

Lemma mapM_Returns_length f l k : mapM f l = Returns k -> length k = length l.
Proof. intros H. apply mapM_Returns in H. symmetry. by eapply Forall2_length. Qed.

Lemma mapM_not_Returns f l x :
  x ∈ l -> (forall y, f x <> Returns y) -> forall k, mapM f l <> Returns k.
Proof.
  intros Hx Hfx k H. apply mapM_Returns in H.
  revert k H. induction Hx as [x l|x x' l _ IH]; intros k H;
    inversion H as [|? y ? k' Hy Hk]; subst.
  - by apply (Hfx y).
  - by apply (IH Hfx k').
Qed.

End OutcomeFacts.

(** ** The component matrix *)

Module MatrixFacts.

Import Matrix Examples.

Lemma pop_prefix {A : Type} (dirs : list A) : pop dirs `prefix_of` dirs.
Proof.
  unfold pop. induction dirs as [|d dirs IH]; [done|].
  destruct dirs as [|d' dirs]; simpl.
  - by exists [d].
  - by apply prefix_cons.
Qed.

(** Membership in the filtered array, for an element of the array it was
    filtered from, is the filter's own test. *)
Lemma includes_changedContracts candidates changedFiles item :
  item ∈ candidates ->
  impacted false (changedContracts candidates changedFiles) item
  = existsb (fun f => startsWith (file f) (default "undefined" (sourceLocation item)))
      changedFiles.
Proof.
  intros Hin. unfold impacted, changedContracts. simpl.
  destruct (existsb _ changedFiles) eqn:E.
  - apply bool_decide_eq_true. apply list_elem_of_In, filter_In.
    split; [by apply list_elem_of_In|exact E].
  - apply bool_decide_eq_false. intros H.
    apply list_elem_of_In, filter_In in H as [_ H]. congruence.
Qed.

Lemma impacted_forceAll changed item : impacted true changed item = true.
Proof. reflexivity. Qed.

Section FileSystem.

Variable existsSync : string -> bool.

Lemma findRoot_loop_found fuel rootFile dirs :
  existsSync (path.join ("./" :: dirs ++ [rootFile])) = true ->
  findRoot_loop existsSync (S fuel) rootFile dirs = Returns (pop dirs).
Proof. intros H. simpl. by rewrite H. Qed.

Lemma findRoot_loop_not_found fuel rootFile dirs :
  existsSync (path.join ("./" :: dirs ++ [rootFile])) = false ->
  findRoot_loop existsSync (S fuel) rootFile dirs
  = findRoot_loop existsSync fuel rootFile (pop dirs).
Proof. intros H. simpl. by rewrite H. Qed.

(** The loop condition never fails, and popping the empty array leaves it
    empty: without a marker on the way up the loop has no exit. *)
Lemma findRoot_loop_no_marker rootFile fuel : forall dirs,
  (forall d, d `prefix_of` dirs ->
             existsSync (path.join ("./" :: d ++ [rootFile])) = false) ->
  findRoot_loop existsSync fuel rootFile dirs = OutOfFuel.
Proof.
  induction fuel as [|fuel IH]; intros dirs Hno; [reflexivity|].
  rewrite findRoot_loop_not_found by (by apply Hno).
  apply IH. intros d Hd. apply Hno. etrans; [exact Hd|apply pop_prefix].
Qed.

Lemma pop_snoc {A : Type} (l : list A) (x : A) : pop (l ++ [x]) = l.
Proof. apply removelast_last. Qed.

(** More fuel does not change what the loop returns. *)
Lemma findRoot_loop_more_fuel rootFile fuel : forall dirs result n,
  findRoot_loop existsSync fuel rootFile dirs = Returns result ->
  findRoot_loop existsSync (fuel + n) rootFile dirs = Returns result.
Proof.
  induction fuel as [|fuel IH]; intros dirs result n; [done|].
  simpl. destruct (existsSync _); [done|]. apply IH.
Qed.

(** The loop goes up until it meets a marker, and returns the parent of
    the directory where it met it: [d] is the deepest of the directories
    from [d ++ rest] up that holds the marker. *)
Lemma findRoot_loop_deepest_marker rootFile (d : list string) (n : nat) :
  forall rest : list string,
  existsSync (path.join ("./" :: d ++ [rootFile])) = true ->
  (forall more : list string,
     more <> [] -> (d ++ more)%list `prefix_of` (d ++ rest)%list ->
     existsSync (path.join ("./" :: (d ++ more) ++ [rootFile])) = false) ->
  findRoot_loop existsSync (S (length rest) + n) rootFile (d ++ rest) = Returns (pop d).
Proof.
  induction rest as [|x rest IH] using rev_ind; intros Hd Hdeeper.
  - rewrite app_nil_r. by apply findRoot_loop_found.
  - rewrite length_app. simpl length. rewrite Nat.add_1_r.
    change (S (S (length rest)) + n) with (S (S (length rest) + n)).
    rewrite findRoot_loop_not_found.
    + rewrite app_assoc, pop_snoc. apply IH; [exact Hd|].
      intros more Hmore Hprefix. apply Hdeeper; [exact Hmore|].
      etrans; [exact Hprefix|]. apply prefix_app, prefix_app_r. done.
    + apply Hdeeper; [by destruct rest|done].
Qed.

(** X4.  [findRoot] on a path whose deepest directory with a marker is
    [d]: the result is the parent of [d], and the root when [d] has
    none. *)
Lemma findRoot_parent_of_deepest_marker fileName rootFile (d rest : list string) (n : nat) :
  split "/" fileName = (d ++ rest)%list ->
  existsSync (path.join ("./" :: d ++ [rootFile])) = true ->
  (forall more : list string,
     more <> [] -> (d ++ more)%list `prefix_of` (d ++ rest)%list ->
     existsSync (path.join ("./" :: (d ++ more) ++ [rootFile])) = false) ->
  findRoot existsSync (S (length rest) + n) fileName rootFile
  = Returns (if (0 <? length (pop d))%nat then join "/" (pop d) else "./").
Proof.
  intros Hsplit Hd Hdeeper. unfold findRoot.
  by rewrite Hsplit, findRoot_loop_deepest_marker.
Qed.

(** With a marker in the root the loop returns, for every path. *)
Lemma findRoot_loop_returns rootFile :
  existsSync (path.join ("./" :: [] ++ [rootFile])) = true ->
  forall dirs, exists result,
    findRoot_loop existsSync (S (length dirs)) rootFile dirs = Returns result.
Proof.
  intros Hroot dirs. induction dirs as [|x dirs IH] using rev_ind.
  - exists []. by apply findRoot_loop_found.
  - destruct (existsSync (path.join ("./" :: (dirs ++ [x]) ++ [rootFile]))) eqn:E.
    + exists (pop (dirs ++ [x])). by apply findRoot_loop_found.
    + destruct IH as [result IH]. exists result.
      rewrite findRoot_loop_not_found by exact E.
      rewrite length_app, pop_snoc. simpl length. by rewrite Nat.add_1_r.
Qed.

(** What a row holds when it is built. *)
Lemma matrixRow_Returns fuel force changed item row :
  matrixRow existsSync fuel force changed item = Returns row ->
  exists item_tags,
    tags (metadata item) = Some item_tags
    /\ row_name row = name (metadata item)
    /\ row_tags row = item_tags
    /\ sourceLocationDir item = Returns (row_path row)
    /\ findRoot existsSync fuel (row_path row) "package.json" = Returns (nodeRoot row)
    /\ runSlither row = isSolidity item_tags && impacted force changed item.
Proof.
  unfold matrixRow. intros H.
  destruct (tags (metadata item)) as [item_tags|]; [|discriminate].
  exists item_tags. simpl in H.
  destruct (sourceLocationDir item) as [p| |]; try discriminate. simpl in H.
  destruct (findRoot existsSync fuel p "package.json") as [root| |] eqn:Hroot;
    try discriminate.
  injection H as <-. simpl. by rewrite Hroot.
Qed.

(** With a [package.json] in the root, a candidate with tags gets its
    row once the loop is given enough iterations. *)
Lemma matrixRow_returns force changed item :
  existsSync (path.join ("./" :: [] ++ ["package.json"])) = true ->
  is_Some (tags (metadata item)) -> is_Some (sourceLocation item) ->
  exists enough, forall fuel, enough <= fuel ->
    exists row, matrixRow existsSync fuel force changed item = Returns row.
Proof.
  intros Hroot [item_tags Htags] [loc Hloc].
  unfold matrixRow, sourceLocationDir, findRoot. rewrite Htags, Hloc. simpl.
  set (dirs := split "/" (join "/" (slice_to_last 7 (split "/" loc)))).
  destruct (findRoot_loop_returns "package.json" Hroot dirs) as [result Hresult].
  exists (S (length dirs)). intros fuel Hfuel.
  replace fuel with (S (length dirs) + (fuel - S (length dirs))) by lia.
  rewrite (findRoot_loop_more_fuel _ _ _ _ _ Hresult). simpl. eauto.
Qed.

Lemma contractItems_sourceLocation repoUrl items item :
  item ∈ contractItems repoUrl items -> is_Some (sourceLocation item).
Proof.
  unfold contractItems. intros [[_ H]%filter_In _]%list_elem_of_In%filter_In.
  by destruct (sourceLocation item).
Qed.

(** X7.  The matrix is returned, once the loop is given enough
    iterations, when every candidate has tags and the root has a
    [package.json]. *)
Lemma generateComponentMatrix_returns repoUrl eventName items changedFiles :
  existsSync (path.join ("./" :: [] ++ ["package.json"])) = true ->
  Forall (fun item => is_Some (tags (metadata item))) (contractItems repoUrl items) ->
  exists enough, forall fuel, enough <= fuel ->
    exists rows,
      generateComponentMatrix existsSync fuel repoUrl eventName items changedFiles
      = Returns rows.
Proof.
  intros Hroot Htags. unfold generateComponentMatrix.
  generalize (changedContracts (contractItems repoUrl items) changedFiles). intros changed.
  assert (Forall (fun item => is_Some (sourceLocation item)) (contractItems repoUrl items))
    as Hlocs by (apply Forall_forall; intros item; apply contractItems_sourceLocation).
  induction Htags as [|item candidates Hitem _ IH].
  - exists 0. intros fuel _. by exists [].
  - apply Forall_cons in Hlocs as [Hloc Hlocs].
    destruct (IH Hlocs) as [enough1 H1].
    destruct (matrixRow_returns (forceAll eventName) changed item Hroot Hitem Hloc)
      as [enough2 H2].
    exists (Nat.max enough1 enough2). intros fuel Hfuel.
    destruct (H1 fuel) as [rows Hrows]; [lia|].
    destruct (H2 fuel) as [row Hrow]; [lia|].
    exists (row :: rows). rewrite mapM_cons, Hrow. simpl. by rewrite Hrows.
Qed.

Lemma matrixRow_without_tags fuel force changed item :
  tags (metadata item) = None ->
  matrixRow existsSync fuel force changed item = Throws (TypeError_reading "includes").
Proof. unfold matrixRow. by intros ->. Qed.

End FileSystem.

Lemma contractItems_app repoUrl l1 l2 :
  contractItems repoUrl (l1 ++ l2) = (contractItems repoUrl l1 ++ contractItems repoUrl l2)%list.
Proof. unfold contractItems. by rewrite !List.filter_app. Qed.

Lemma contractItems_without_annotation repoUrl item :
  sourceLocation item = None -> contractItems repoUrl [item] = [].
Proof. unfold contractItems. simpl. by intros ->. Qed.

(** *** Changed contracts *)

(** C1.  The claim: with [forceAll] false a candidate is impacted exactly
    when a changed file's path starts with the candidate's source
    directory, so for the changed file [contracts/Foo.sol] the candidate
    in [contracts] is impacted and the one in [contracts2] is not.  The
    code compares the path with the whole annotation
    ([url:https://github.com/o/r/tree/main/contracts/]), not with the
    directory: on a pull request neither candidate is impacted. *)
Theorem changed_file_in_source_directory_not_impacted :
  generateComponentMatrix everywhere 1 repoUrl (Some "pull_request")
    [in_contracts; in_contracts2] Foo_changed
  = Returns
      [ {| row_name := "bridge"; row_tags := ["ethereum"]; row_path := "contracts";
           nodeRoot := "./"; runSlither := false |};
        {| row_name := "bridge"; row_tags := ["ethereum"]; row_path := "contracts2";
           nodeRoot := "./"; runSlither := false |} ]
  /\ impacted (forceAll (Some "pull_request"))
       (changedContracts (contractItems repoUrl [in_contracts; in_contracts2]) Foo_changed)
       in_contracts = false
  /\ sourceLocationDir in_contracts = Returns "contracts"
  /\ startsWith "contracts/Foo.sol" "contracts" = true.
Proof. by vm_compute. Qed.

(** *** [findRoot] *)

(** C2.  The claim: [findRoot "a/b/c/file.sol" "package.json"] is [a/b]
    when [a/b/package.json] exists and no deeper marker does.  The
    [finally] block pops [dirs] once more after the marker is found, so
    the code returns [a], the parent of the directory that holds the
    marker. *)
Theorem findRoot_returns_parent_of_marker_directory (n : nat) :
  findRoot (only "a/b/package.json") (3 + n) "a/b/c/file.sol" "package.json"
  = Returns "a".
Proof. reflexivity. Qed.

(** C3.  The claim: when no ancestor directory, the root included, holds
    the marker, [findRoot] terminates and returns the root.  In the code
    the loop never ends then: whatever number of iterations it is given,
    it uses them all. *)
Theorem findRoot_without_marker_never_returns
    (existsSync : string -> bool) (fileName rootFile : string) :
  (forall d, d `prefix_of` split "/" fileName ->
             existsSync (path.join ("./" :: d ++ [rootFile])) = false) ->
  forall fuel, findRoot existsSync fuel fileName rootFile = OutOfFuel.
Proof.
  intros Hno fuel. unfold findRoot.
  by rewrite findRoot_loop_no_marker.
Qed.

Lemma findRoot_without_marker_never_returns_witness :
  findRoot nowhere 1000 "a/b" "package.json" = OutOfFuel.
Proof.
  apply (findRoot_without_marker_never_returns nowhere "a/b" "package.json").
  intros d _. reflexivity.
Defined.

(** *** Rows *)

(** C6.  When the event is not a pull request every candidate is
    impacted, whatever the changed files are, the empty list included;
    the flag of each row that is built is the tag test [isSolidity] of
    the candidate's tags and this decision. *)
Theorem forceAll_marks_every_candidate
    (existsSync : string -> bool) (fuel : nat) (repoUrl : string)
    (eventName : option string) (items : list Entity) (changedFiles : list ChangedFile) :
  forceAll eventName = true ->
  let candidates := contractItems repoUrl items in
  let changed := changedContracts candidates changedFiles in
  Forall (fun item => impacted (forceAll eventName) changed item = true) candidates
  /\ generateComponentMatrix existsSync fuel repoUrl eventName items changedFiles
     = generateComponentMatrix existsSync fuel repoUrl eventName items []
  /\ forall rows,
       generateComponentMatrix existsSync fuel repoUrl eventName items changedFiles
       = Returns rows ->
       Forall2
         (fun item row =>
            exists item_tags,
              tags (metadata item) = Some item_tags
              /\ runSlither row
                 = isSolidity item_tags && impacted (forceAll eventName) changed item
              /\ runSlither row = isSolidity item_tags)
         candidates rows.
Proof.
  intros Hforce candidates changed. rewrite Hforce. split; [|split].
  - apply Forall_forall. intros item _. apply impacted_forceAll.
  - unfold generateComponentMatrix. rewrite Hforce. by apply mapM_ext_in.
  - intros rows H. unfold generateComponentMatrix in H. rewrite Hforce in H.
    apply mapM_Returns in H. eapply Forall2_impl; [exact H|].
    intros item row Hrow. simpl in Hrow.
    apply matrixRow_Returns in Hrow as (item_tags & Htags & _ & _ & _ & _ & Hflag).
    exists item_tags. split; [exact Htags|]. split; [exact Hflag|].
    by rewrite Hflag, impacted_forceAll, andb_true_r.
Qed.

Lemma forceAll_marks_every_candidate_witness :
  let candidates := contractItems repoUrl [in_contracts; in_contracts2] in
  Forall (fun item => impacted (forceAll (Some "push")) (changedContracts candidates []) item = true)
    candidates
  /\ generateComponentMatrix everywhere 1 repoUrl (Some "push") [in_contracts; in_contracts2] []
     = Returns
         [ {| row_name := "bridge"; row_tags := ["ethereum"]; row_path := "contracts";
              nodeRoot := "./"; runSlither := true |};
           {| row_name := "bridge"; row_tags := ["ethereum"]; row_path := "contracts2";
              nodeRoot := "./"; runSlither := true |} ].
Proof.
  split.
  - apply (forceAll_marks_every_candidate everywhere 1 repoUrl (Some "push")
             [in_contracts; in_contracts2] []). reflexivity.
  - by vm_compute.
Defined.

(** C9, counterexample.  A contract without the source-location
    annotation raises no error: the matrix is built, without a row for
    it. *)
Lemma missing_annotation_raises_nothing :
  sourceLocation without_annotation = None
  /\ generateComponentMatrix everywhere 1 repoUrl (Some "pull_request")
       [without_annotation] Foo_changed
     = Returns [].
Proof. by vm_compute. Qed.

(** C9, amended.  An entity without the source-location annotation is
    not a candidate: the filter of [contractItems] drops it, no row is
    built for it and the matrix is the one of the other entities.
    [sourceLocationDir] itself, applied to such an entity, throws the
    [TypeError] of reading [split] on [undefined] and returns no path. *)
Theorem artifact_without_annotation_is_skipped
    (existsSync : string -> bool) (fuel : nat) (repoUrl : string)
    (eventName : option string) (before after : list Entity) (item : Entity)
    (changedFiles : list ChangedFile) :
  sourceLocation item = None ->
  (item ∉ contractItems repoUrl (before ++ item :: after))
  /\ generateComponentMatrix existsSync fuel repoUrl eventName (before ++ item :: after)
       changedFiles
     = generateComponentMatrix existsSync fuel repoUrl eventName (before ++ after)
         changedFiles
  /\ sourceLocationDir item = Throws (TypeError_reading "split").
Proof.
  intros Hloc. split; [|split].
  - intros Hin. unfold contractItems in Hin.
    apply list_elem_of_In, filter_In in Hin as [Hin _].
    apply filter_In in Hin as [_ Hin]. by rewrite Hloc in Hin.
  - unfold generateComponentMatrix.
    change (item :: after) with ([item] ++ after)%list.
    rewrite !contractItems_app, (contractItems_without_annotation _ _ Hloc).
    reflexivity.
  - unfold sourceLocationDir. by rewrite Hloc.
Qed.

Lemma artifact_without_annotation_is_skipped_witness :
  (without_annotation ∉ contractItems repoUrl ([in_contracts] ++ without_annotation :: []))
  /\ generateComponentMatrix everywhere 1 repoUrl None
       ([in_contracts] ++ without_annotation :: []) Foo_changed
     = generateComponentMatrix everywhere 1 repoUrl None ([in_contracts] ++ []) Foo_changed
  /\ sourceLocationDir without_annotation = Throws (TypeError_reading "split").
Proof.
  apply (artifact_without_annotation_is_skipped everywhere 1 repoUrl None
           [in_contracts] [] without_annotation Foo_changed).
  reflexivity.
Defined.

(** C10.  A candidate whose metadata has no [tags] gets no row: the
    callback throws on [tags.includes] before anything else is computed,
    and the matrix is returned only if every candidate has tags. *)
Theorem candidate_without_tags_fails
    (existsSync : string -> bool) (fuel : nat) (repoUrl : string)
    (eventName : option string) (items : list Entity) (changedFiles : list ChangedFile)
    (item : Entity) :
  item ∈ contractItems repoUrl items ->
  tags (metadata item) = None ->
  (forall force changed,
     matrixRow existsSync fuel force changed item = Throws (TypeError_reading "includes"))
  /\ forall rows,
       generateComponentMatrix existsSync fuel repoUrl eventName items changedFiles
       <> Returns rows.
Proof.
  intros Hin Htags. split.
  - intros force changed. by apply matrixRow_without_tags.
  - unfold generateComponentMatrix. apply (mapM_not_Returns _ _ item Hin).
    intros row. by rewrite matrixRow_without_tags.
Qed.

Lemma candidate_without_tags_fails_witness :
  (forall force changed,
     matrixRow everywhere 5 force changed without_tags = Throws (TypeError_reading "includes"))
  /\ forall rows,
       generateComponentMatrix everywhere 5 repoUrl None [in_contracts; without_tags] []
       <> Returns rows.
Proof.
  apply (candidate_without_tags_fails everywhere 5 repoUrl None
           [in_contracts; without_tags] [] without_tags).
  - apply (bool_decide_unpack _). by vm_compute.
  - reflexivity.
Defined.

End MatrixFacts.

(** ** Outcomes that are related, and outcomes that need no fuel *)

Lemma ends_Returns {A : Type} (a : A) : ends (Returns a).
Proof. discriminate. Qed.

Lemma ends_Throws {A : Type} (e : JsError) : ends (@Throws A e).
Proof. discriminate. Qed.

Lemma ends_mret {A : Type} (a : A) : ends (mret a).
Proof. discriminate. Qed.

Lemma ends_bind {A B : Type} (m : outcome A) (f : A -> outcome B) :
  ends m -> (forall a, ends (f a)) -> ends (m ≫= f).
Proof. intros Hm Hf. destruct m as [a|e|]; simpl; [apply Hf|discriminate|done]. Qed.

Lemma ends_deref {A : Type} (p : string) (x : option A) : ends (deref p x).
Proof. destruct x; discriminate. Qed.

Lemma ends_call {A : Type} (r : JsError + A) : ends (Multisigs.call r).
Proof. destruct r; discriminate. Qed.

Lemma ends_mapM {A B : Type} (f : A -> outcome B) (l : list A) :
  (forall x, ends (f x)) -> ends (mapM f l).
Proof.
  intros Hf. induction l as [|x l IH]; [discriminate|].
  rewrite mapM_cons. apply ends_bind; [apply Hf|]. intros y.
  apply ends_bind; [exact IH|]. intros k. apply ends_mret.
Qed.

Lemma ends_filterM {A : Type} (p : A -> outcome bool) (l : list A) :
  (forall x, ends (p x)) -> ends (Multisigs.filterM p l).
Proof.
  intros Hp. induction l as [|x l IH]; [discriminate|].
  simpl. apply ends_bind; [apply Hp|]. intros b.
  apply ends_bind; [exact IH|]. intros k. apply ends_mret.
Qed.

Ltac ends_step :=
  first
    [ apply ends_mret | apply ends_Returns | apply ends_Throws
    | apply ends_deref | apply ends_call
    | apply ends_mapM; intros ?
    | apply ends_filterM; intros ?
    | match goal with |- ends (if ?b then _ else _) => destruct b end
    | match goal with |- ends (_ ≫= _) => apply ends_bind; [|intros ?] end ].

Lemma ends_not_Returns {A : Type} (m : outcome A) :
  ends m -> (forall a, m <> Returns a) -> exists e, m = Throws e.
Proof. destruct m as [a|e|]; intros He Hr; [by destruct (Hr a)|by exists e|done]. Qed.

Lemma outcome_rel_bind {A B A' B' : Type} (R : A -> B -> Prop) (R' : A' -> B' -> Prop)
    (m1 : outcome A) (m2 : outcome B) (f : A -> outcome A') (g : B -> outcome B') :
  outcome_rel R m1 m2 ->
  (forall a b, R a b -> outcome_rel R' (f a) (g b)) ->
  outcome_rel R' (m1 ≫= f) (m2 ≫= g).
Proof. destruct m1, m2; simpl; try done; auto. Qed.

Lemma outcome_rel_trans {A : Type} (R : A -> A -> Prop) (m1 m2 m3 : outcome A) :
  (forall a b c, R a b -> R b c -> R a c) ->
  outcome_rel R m1 m2 -> outcome_rel R m2 m3 -> outcome_rel R m1 m3.
Proof. destruct m1, m2, m3; simpl; try done; eauto. Qed.

Section OutcomeRel.

Context {A B : Type}.

(** The same array, mapped by two callbacks that are related on each
    element. *)
Lemma mapM_rel {C : Type} (R : A -> B -> Prop) (f : C -> outcome A) (g : C -> outcome B)
    (l : list C) :
  (forall x, x ∈ l -> outcome_rel R (f x) (g x)) ->
  outcome_rel (Forall2 R) (mapM f l) (mapM g l).
Proof.
  induction l as [|x l IH]; intros Hfg; [by constructor|].
  rewrite !mapM_cons.
  apply (outcome_rel_bind R); [apply Hfg; left|]. intros a b Hab.
  apply (outcome_rel_bind (Forall2 R)).
  - apply IH. intros y Hy. apply Hfg. by right.
  - intros k1 k2 Hk. simpl. by constructor.
Qed.

(** The array permuted, mapped by one callback. *)
Lemma mapM_Permutation (f : A -> outcome B) (l1 l2 : list A) :
  l1 ≡ₚ l2 -> outcome_rel (≡ₚ) (mapM f l1) (mapM f l2).
Proof.
  induction 1 as [|x l1 l2 _ IH|x y l|l1 l2 l3 _ IH1 _ IH2].
  - by simpl.
  - rewrite !mapM_cons. destruct (f x); simpl; try done.
    destruct (mapM f l1), (mapM f l2); simpl in *; try done. by constructor.
  - rewrite !mapM_cons. destruct (f x), (f y); simpl; try done;
      destruct (mapM f l); simpl; try done. apply perm_swap.
  - eapply outcome_rel_trans; [|exact IH1|exact IH2]. intros a b c. apply perm_trans.
Qed.

End OutcomeRel.

(** ** Arrays: [filter], [find], [new Set], [sort] *)

Lemma List_filter_Permutation {A : Type} (p : A -> bool) (l1 l2 : list A) :
  l1 ≡ₚ l2 -> List.filter p l1 ≡ₚ List.filter p l2.
Proof.
  induction 1 as [|x l1 l2 _ IH|x y l|l1 l2 l3 _ IH1 _ IH2]; simpl.
  - done.
  - destruct (p x); [by constructor|done].
  - destruct (p x), (p y); try done. apply perm_swap.
  - by etrans.
Qed.

(** [find] does not depend on the order of an array in which at most
    one element passes the test. *)
Lemma find_Permutation {A : Type} (p : A -> bool) (l1 l2 : list A) :
  l1 ≡ₚ l2 ->
  (forall x y, x ∈ l1 -> y ∈ l1 -> p x = true -> p y = true -> x = y) ->
  List.find p l1 = List.find p l2.
Proof.
  induction 1 as [|x l1 l2 Hl IH|x y l|l1 l2 l3 Hl1 IH1 Hl2 IH2]; intros Huniq; simpl.
  - done.
  - destruct (p x); [done|]. apply IH. intros a b Ha Hb. apply Huniq; by right.
  - destruct (p x) eqn:Hx, (p y) eqn:Hy; try done.
    f_equal. apply Huniq; auto; [left|right; left].
  - rewrite IH1 by done. apply IH2.
    intros a b Ha Hb. apply Huniq; by rewrite Hl1.
Qed.

Section Distinct.

Context {A : Type} `{EqDecision A}.

Lemma distinct_fold (l : list A) : forall seen,
  NoDup seen ->
  NoDup (fold_left Multisigs.add_to_set l seen)
  /\ forall x, x ∈ fold_left Multisigs.add_to_set l seen <-> x ∈ seen \/ x ∈ l.
Proof.
  induction l as [|y l IH]; intros seen Hseen; simpl.
  - split; [done|]. intros x. rewrite elem_of_nil. tauto.
  - assert (NoDup (Multisigs.add_to_set seen y)) as Hstep.
    { unfold Multisigs.add_to_set. case_bool_decide; [done|].
      apply NoDup_app. split_and!; [done| |apply NoDup_singleton].
      intros x Hx ->%list_elem_of_singleton. done. }
    destruct (IH _ Hstep) as [Hnd Hin]. split; [done|].
    intros x. rewrite Hin, elem_of_cons. unfold Multisigs.add_to_set.
    case_bool_decide as Hy.
    + split; [tauto|]. intros [?|[->|?]]; auto.
    + rewrite elem_of_app, list_elem_of_singleton. tauto.
Qed.

Lemma NoDup_distinct (l : list A) : NoDup (Multisigs.distinct l).
Proof. apply distinct_fold, NoDup_nil_2. Qed.

Lemma elem_of_distinct (l : list A) (x : A) : x ∈ Multisigs.distinct l <-> x ∈ l.
Proof.
  etrans; [exact (proj2 (distinct_fold l [] (NoDup_nil_2)) x)|].
  rewrite elem_of_nil. tauto.
Qed.

Lemma distinct_Permutation (l1 l2 : list A) :
  l1 ≡ₚ l2 -> Multisigs.distinct l1 ≡ₚ Multisigs.distinct l2.
Proof.
  intros Hl. apply NoDup_Permutation; [apply NoDup_distinct..|].
  intros x. by rewrite !elem_of_distinct, Hl.
Qed.

End Distinct.

Section Sorting.

Context {A : Type} (cmp : A -> A -> Z).

Local Abbreviation le := (cmp_le cmp).

Lemma insert_sorted_Permutation (x : A) (l : list A) :
  Multisigs.insert_sorted cmp x l ≡ₚ x :: l.
Proof.
  induction l as [|y l IH]; simpl; [done|].
  destruct (cmp x y <=? 0)%Z; [done|]. rewrite IH. apply perm_swap.
Qed.

Lemma sort_Permutation (l : list A) : Multisigs.sort cmp l ≡ₚ l.
Proof.
  induction l as [|x l IH]; simpl; [done|].
  by rewrite insert_sorted_Permutation, IH.
Qed.

(** The comparator is consistent: a total preorder. *)
Hypothesis cmp_total : forall x y, le x y \/ le y x.
Hypothesis cmp_trans : forall x y z, le x y -> le y z -> le x z.

Lemma insert_sorted_StronglySorted (x : A) (l : list A) :
  StronglySorted le l -> StronglySorted le (Multisigs.insert_sorted cmp x l).
Proof.
  induction 1 as [|y l Hl IH Hy]; simpl.
  - repeat constructor.
  - destruct (cmp x y <=? 0)%Z eqn:Hxy.
    + apply Z.leb_le in Hxy. constructor; [by constructor|].
      constructor; [exact Hxy|].
      eapply Forall_impl; [exact Hy|]. intros z. by apply cmp_trans.
    + apply Z.leb_gt in Hxy. constructor; [exact IH|].
      rewrite insert_sorted_Permutation. constructor; [|exact Hy].
      destruct (cmp_total x y) as [H|H]; [|exact H]. unfold cmp_le in H. lia.
Qed.

Lemma sort_StronglySorted (l : list A) : StronglySorted le (Multisigs.sort cmp l).
Proof.
  induction l as [|x l IH]; simpl; [constructor|].
  by apply insert_sorted_StronglySorted.
Qed.

(** When no two different elements compare equal, the sorted array
    depends on the elements only. *)
Lemma sort_unique (l1 l2 : list A) :
  (forall x y, x ∈ l1 -> y ∈ l1 -> le x y -> le y x -> x = y) ->
  l1 ≡ₚ l2 -> Multisigs.sort cmp l1 = Multisigs.sort cmp l2.
Proof.
  intros Hanti Hl.
  apply (StronglySorted_unique_strong le); [|apply sort_StronglySorted..|].
  - intros x y Hx Hy. rewrite sort_Permutation in Hx. rewrite sort_Permutation, <- Hl in Hy.
    by apply Hanti.
  - by rewrite !sort_Permutation.
Qed.

End Sorting.

Lemma insert_sorted_Forall2 {A B : Type} (R : A -> B -> Prop)
    (cmpA : A -> A -> Z) (cmpB : B -> B -> Z) (x : A) (y : B) (l : list A) (k : list B) :
  (forall a b a' b', R a b -> R a' b' -> cmpA a a' = cmpB b b') ->
  R x y -> Forall2 R l k ->
  Forall2 R (Multisigs.insert_sorted cmpA x l) (Multisigs.insert_sorted cmpB y k).
Proof.
  intros Hcmp Hxy. induction 1 as [|a b l k Hab Hlk IH]; simpl.
  - by repeat constructor.
  - rewrite (Hcmp x y a b) by done.
    destruct (cmpB y b <=? 0)%Z; repeat constructor; done.
Qed.

Lemma sort_Forall2 {A B : Type} (R : A -> B -> Prop)
    (cmpA : A -> A -> Z) (cmpB : B -> B -> Z) (l : list A) (k : list B) :
  (forall a b a' b', R a b -> R a' b' -> cmpA a a' = cmpB b b') ->
  Forall2 R l k -> Forall2 R (Multisigs.sort cmpA l) (Multisigs.sort cmpB k).
Proof.
  intros Hcmp. induction 1; simpl; [constructor|].
  by apply insert_sorted_Forall2.
Qed.

Lemma insert_sorted_fmap {A B : Type} (f : A -> B) (cmp : B -> B -> Z) (x : A) (k : list A) :
  Multisigs.insert_sorted cmp (f x) (f <$> k)
  = f <$> Multisigs.insert_sorted (fun a b => cmp (f a) (f b)) x k.
Proof.
  induction k as [|y k IHk]; csimpl; [done|].
  destruct (cmp (f x) (f y) <=? 0)%Z; csimpl; [done|]. by rewrite IHk.
Qed.

(** Sorting the images is sorting by the images. *)
Lemma sort_fmap {A B : Type} (f : A -> B) (cmp : B -> B -> Z) (l : list A) :
  Multisigs.sort cmp (f <$> l) = f <$> Multisigs.sort (fun a b => cmp (f a) (f b)) l.
Proof.
  unfold Multisigs.sort. induction l as [|x l IH]; csimpl; [done|].
  rewrite IH. apply insert_sorted_fmap.
Qed.

(** ** The multisig hierarchy *)

Module MultisigsFacts.

Import Multisigs MultisigsSpec.

Lemma filterM_Returns {A : Type} (p : A -> outcome bool) (l k : list A) :
  filterM p l = Returns k ->
  Forall (fun x => exists b, p x = Returns b) l /\ k = List.filter (test_of p) l.
Proof.
  revert k. induction l as [|x l IH]; intros k; simpl.
  - intros [= <-]. by split.
  - intros H. apply bind_Returns in H as (b & Hb & H).
    apply bind_Returns in H as (rest & Hrest & [= <-]).
    destruct (IH rest Hrest) as [Hall ->]. split.
    + constructor; [by exists b|exact Hall].
    + cbn [List.filter].
      assert (test_of p x = b) as -> by (unfold test_of; by rewrite Hb).
      reflexivity.
Qed.

Lemma filterM_pure {A : Type} (p : A -> outcome bool) (l : list A) :
  Forall (fun x => exists b, p x = Returns b) l ->
  filterM p l = Returns (List.filter (test_of p) l).
Proof.
  induction 1 as [|x l [b Hb] _ IH]; simpl; [done|].
  rewrite Hb, IH. cbn [List.filter].
  assert (test_of p x = b) as -> by (unfold test_of; by rewrite Hb).
  reflexivity.
Qed.

Section CatalogModel.

Variable stringifyEntityRef : Entity -> string.
Variable parseEntityRef : string -> JsError + CompoundEntityRef.
Variable localeCompare : string -> string -> Z.

Local Abbreviation sort_by := (sort_by localeCompare).
Local Abbreviation find_ref := (find_ref stringifyEntityRef).
Local Abbreviation collectSigners := (collectSigners stringifyEntityRef parseEntityRef localeCompare).
Local Abbreviation multisigs_of := (multisigs_of stringifyEntityRef parseEntityRef localeCompare).
Local Abbreviation collectComponents :=
  (collectComponents stringifyEntityRef parseEntityRef localeCompare).
Local Abbreviation collectSystems := (collectSystems stringifyEntityRef parseEntityRef localeCompare).
Local Abbreviation MultisigsCollector :=
  (MultisigsCollector stringifyEntityRef parseEntityRef localeCompare).
Local Abbreviation normalizeEntities := (normalizeEntities localeCompare).
Local Abbreviation collector_error := (collector_error parseEntityRef).
Local Abbreviation by_owner_name := (by_owner_name localeCompare).

(** *** [sort] with a key *)

Lemma keyed_Returns {A : Type} (key : A -> outcome string) (l : list A)
    (keyed : list (string * A)) :
  mapM (fun x => k ← key x; mret (k, x)) l = Returns keyed ->
  Forall (fun x => exists s, key x = Returns s) l
  /\ keyed = (fun x => (key_of key x, x)) <$> l.
Proof.
  intros H. apply mapM_Returns in H.
  induction H as [|x p l keyed Hp _ [IH1 IH2]]; [by split|].
  apply bind_Returns in Hp as (s & Hs & [= <-]). split.
  - constructor; [by exists s|exact IH1].
  - csimpl. unfold key_of at 1. by rewrite Hs, IH2.
Qed.

(** What [sort_by] returns: the array itself when it is shorter than
    two, else the array sorted by the keys, which all exist. *)
Lemma sort_by_Returns {A : Type} (key : A -> outcome string) (l k : list A) :
  sort_by key l = Returns k ->
  (length l < 2 /\ k = l)
  \/ (2 <= length l
      /\ Forall (fun x => exists s, key x = Returns s) l
      /\ k = sort (fun a b => localeCompare (key_of key a) (key_of key b)) l).
Proof.
  destruct l as [|x [|y l]]; simpl.
  - intros [= <-]. left. split; [lia|done].
  - intros [= <-]. left. split; [simpl; lia|done].
  - intros H. right. split; [lia|].
    apply bind_Returns in H as (keyed & Hkeyed & [= <-]).
    change (mapM (fun x => k ← key x; mret (k, x)) (x :: y :: l) = Returns keyed) in Hkeyed.
    apply keyed_Returns in Hkeyed as [Hall ->]. split; [exact Hall|].
    rewrite (sort_fmap (fun x => (key_of key x, x))
               (fun p q => localeCompare p.1 q.1)).
    rewrite <- list_fmap_compose. apply list_fmap_id.
Qed.

Lemma sort_by_Permutation {A : Type} (key : A -> outcome string) (l k : list A) :
  sort_by key l = Returns k -> k ≡ₚ l.
Proof.
  intros [[_ ->]|(_ & _ & ->)]%sort_by_Returns; [done|apply sort_Permutation].
Qed.

Lemma ends_sort_by {A : Type} (key : A -> outcome string) (l : list A) :
  (forall x, ends (key x)) -> ends (sort_by key l).
Proof.
  intros Hkey. destruct l as [|x [|y l]]; [discriminate..|].
  unfold Multisigs.sort_by. repeat ends_step; apply Hkey.
Qed.

(** *** The collector ends *)

Ltac ends_tac := repeat first [ends_step | apply ends_sort_by; intros ?].

Lemma ends_collectSigners entities multisig : ends (collectSigners entities multisig).
Proof.
  unfold Multisigs.collectSigners, Multisigs.owned_by_signer, Multisigs.resolve_signer,
    Multisigs.owner_name.
  ends_tac.
Qed.

Lemma ends_multisigs_of entities ms componentRef :
  ends (multisigs_of entities ms componentRef).
Proof.
  unfold Multisigs.multisigs_of. apply ends_mapM. intros m.
  apply ends_bind; [apply ends_collectSigners|intros; ends_tac].
Qed.

Lemma ends_collectComponents entities ms system :
  ends (collectComponents entities ms system).
Proof.
  unfold Multisigs.collectComponents, Multisigs.has_part_component,
    Multisigs.resolve_component.
  repeat first [apply ends_multisigs_of | ends_step | apply ends_sort_by; intros ?].
Qed.

Lemma ends_collectSystems entities ms : ends (collectSystems entities ms).
Proof.
  unfold Multisigs.collectSystems, Multisigs.resolve_system, Multisigs.system_of.
  repeat first [apply ends_collectComponents | ends_step | apply ends_sort_by; intros ?].
Qed.

(** *** The collector reads [entities] through [find] only *)

Lemma bind_ext {A B : Type} (m : outcome A) (f g : A -> outcome B) :
  (forall a, f a = g a) -> m ≫= f = m ≫= g.
Proof. intros Hfg. destruct m; simpl; auto. Qed.

Section SameLookups.

Variables entities1 entities2 : list Entity.
Hypothesis same_lookups : forall ref, find_ref entities1 ref = find_ref entities2 ref.

Lemma collectSigners_ext multisig :
  collectSigners entities1 multisig = collectSigners entities2 multisig.
Proof.
  unfold Multisigs.collectSigners. apply bind_ext. intros owned.
  f_equal. apply mapM_ext_in. intros r _. unfold Multisigs.resolve_signer.
  rewrite same_lookups. apply bind_ext. intros s. apply bind_ext. intros sp.
  by rewrite same_lookups.
Qed.

Lemma multisigs_of_ext ms componentRef :
  multisigs_of entities1 ms componentRef = multisigs_of entities2 ms componentRef.
Proof.
  unfold Multisigs.multisigs_of. apply mapM_ext_in. intros m _.
  by rewrite collectSigners_ext.
Qed.

Lemma collectComponents_ext ms system :
  collectComponents entities1 ms system = collectComponents entities2 ms system.
Proof.
  unfold Multisigs.collectComponents. apply bind_ext. intros sys.
  apply bind_ext. intros componentRefs. f_equal.
  apply mapM_ext_in. intros r _. unfold Multisigs.resolve_component.
  rewrite same_lookups. apply bind_ext. intros c. by rewrite multisigs_of_ext.
Qed.

Lemma collectSystems_ext ms : collectSystems entities1 ms = collectSystems entities2 ms.
Proof.
  unfold Multisigs.collectSystems. apply bind_ext. intros refs. f_equal.
  apply mapM_ext_in. intros r _. unfold Multisigs.resolve_system.
  by rewrite same_lookups, collectComponents_ext.
Qed.

End SameLookups.

(** *** Lookups by reference *)

Lemma find_app {A : Type} (p : A -> bool) (l k : list A) :
  List.find p (l ++ k) = match List.find p l with Some x => Some x | None => List.find p k end.
Proof. induction l as [|x l IH]; simpl; [done|]. by destruct (p x). Qed.

(** The first entity with a reference is the one every lookup of that
    reference finds. *)
Lemma find_ref_first before item after :
  (forall x, x ∈ before -> stringifyEntityRef x <> stringifyEntityRef item) ->
  find_ref (before ++ item :: after) (Some (stringifyEntityRef item)) = Some item.
Proof.
  intros Hbefore. unfold Multisigs.find_ref. rewrite find_app.
  destruct (List.find _ before) as [x|] eqn:Hx.
  - apply find_some in Hx as [Hin Href]. apply bool_decide_eq_true in Href.
    destruct (Hbefore x); [by apply list_elem_of_In|congruence].
  - simpl. by rewrite bool_decide_eq_true_2.
Qed.

(** An entity that comes after one with the same reference is found by
    no lookup. *)
Lemma find_ref_later_duplicate before item between again after ref :
  stringifyEntityRef again = stringifyEntityRef item ->
  find_ref (before ++ item :: between ++ again :: after) ref
  = find_ref (before ++ item :: between ++ after) ref.
Proof.
  intros Hsame. unfold Multisigs.find_ref. rewrite !find_app. simpl List.find.
  destruct (List.find _ before); [done|].
  rewrite !find_app. simpl List.find. rewrite Hsame.
  destruct (bool_decide (Some (stringifyEntityRef item) = ref)); [done|].
  by destruct (List.find _ between).
Qed.

Lemma NoDup_fmap_eq {A B : Type} (f : A -> B) (l : list A) (x y : A) :
  NoDup (f <$> l) -> x ∈ l -> y ∈ l -> f x = f y -> x = y.
Proof.
  induction l as [|z l IH]; csimpl; [by intros _ ?%elem_of_nil|].
  intros [Hz Hl]%NoDup_cons [->|Hx]%elem_of_cons [->|Hy]%elem_of_cons Hxy; auto.
  - destruct Hz. rewrite Hxy. by apply list_elem_of_fmap_2.
  - destruct Hz. rewrite <- Hxy. by apply list_elem_of_fmap_2.
Qed.

Lemma find_ref_Permutation entities1 entities2 ref :
  entities1 ≡ₚ entities2 ->
  NoDup (stringifyEntityRef <$> entities1) ->
  find_ref entities1 ref = find_ref entities2 ref.
Proof.
  intros Hperm Hnodup. apply find_Permutation; [exact Hperm|].
  intros x y Hx Hy Hpx Hpy.
  apply bool_decide_eq_true in Hpx, Hpy.
  apply (NoDup_fmap_eq stringifyEntityRef entities1); try done. congruence.
Qed.

(** C7, amended.  Two entities with one reference raise no error.  What
    [find] returns for that reference is the entity that comes first in
    the input; the one that comes later is returned by no lookup, and
    unless it is a multisig deployment itself the hierarchy is the one
    of the input without it. *)
Theorem duplicate_reference_first_wins
    (before between after : list Entity) (item again : Entity) :
  stringifyEntityRef again = stringifyEntityRef item ->
  (forall x, x ∈ before -> stringifyEntityRef x <> stringifyEntityRef item) ->
  let entities := (before ++ item :: between ++ again :: after)%list in
  find_ref entities (Some (stringifyEntityRef item)) = Some item
  /\ (forall ref, find_ref entities ref = find_ref (before ++ item :: between ++ after) ref)
  /\ (is_multisig again = false ->
      MultisigsCollector entities
      = MultisigsCollector (before ++ item :: between ++ after)).
Proof.
  intros Hsame Hfirst entities. split; [by apply find_ref_first|].
  split; [intros ref; by apply find_ref_later_duplicate|].
  intros Hagain. unfold Multisigs.MultisigsCollector, entities.
  assert (List.filter is_multisig (before ++ item :: between ++ again :: after)
          = List.filter is_multisig (before ++ item :: between ++ after)) as ->.
  { rewrite !List.filter_app. simpl. rewrite !List.filter_app. simpl.
    by rewrite Hagain. }
  apply collectSystems_ext. intros ref. by apply find_ref_later_duplicate.
Qed.

(** *** The system references *)

Lemma mapM_pure {A B : Type} (f : A -> outcome B) (g : A -> B) (l : list A) :
  (forall x, x ∈ l -> f x = Returns (g x)) -> mapM f l = Returns (g <$> l).
Proof.
  intros Hfg. apply mapM_Returns. apply Forall2_fmap_r, Forall_Forall2_diag.
  by apply Forall_forall.
Qed.

Lemma is_multisig_spec item :
  is_multisig item = true -> exists s, spec item = Some s.
Proof.
  unfold is_multisig, spec_type_of. intros [_ H]%andb_true_iff.
  destruct (spec item) as [s|]; [by exists s|done].
Qed.

Lemma system_refs_Returns entities :
  mapM system_of (List.filter is_multisig entities)
  = Returns (system_ref <$> List.filter is_multisig entities).
Proof.
  apply mapM_pure. intros item [_ Hitem]%list_elem_of_In%filter_In.
  destruct (is_multisig_spec item Hitem) as [s Hs].
  unfold system_of, system_ref. by rewrite Hs.
Qed.

Lemma elem_of_sort {A : Type} (cmp : A -> A -> Z) (l : list A) (x : A) :
  x ∈ sort cmp l <-> x ∈ l.
Proof. by rewrite sort_Permutation. Qed.

Lemma elem_of_normalizeEntities refs ref : ref ∈ normalizeEntities refs <-> ref ∈ refs.
Proof.
  unfold Multisigs.normalizeEntities. rewrite elem_of_app, list_elem_of_fmap.
  rewrite <- (elem_of_distinct refs ref). destruct ref as [r|]; split.
  - intros [(r' & [= <-] & Hr)|Hnone].
    + apply elem_of_sort, list_elem_of_omap in Hr as (o & Ho & Hid). simpl in Hid. by subst.
    + case_bool_decide; [|by apply elem_of_nil in Hnone].
      by apply list_elem_of_singleton in Hnone.
  - intros Hr. left. exists r. split; [done|].
    apply elem_of_sort, list_elem_of_omap. by exists (Some r).
  - intros [(r' & [=] & _)|Hnone]. by case_bool_decide; [|apply elem_of_nil in Hnone].
  - intros Hnone. right. rewrite bool_decide_eq_true_2 by done. by left.
Qed.

(** *** References that resolve to nothing *)

Lemma resolve_system_dangling entities ms ref :
  find_ref entities ref = None ->
  resolve_system stringifyEntityRef parseEntityRef localeCompare entities ms ref
  = Throws (TypeError_reading "relations").
Proof. unfold resolve_system. by intros ->. Qed.

Lemma resolve_component_dangling entities ms r :
  find_ref entities (Some (targetRef r)) = None ->
  resolve_component stringifyEntityRef parseEntityRef localeCompare entities ms r
  = Throws (TypeError_reading "metadata").
Proof. unfold resolve_component. by intros ->. Qed.

Lemma resolve_signer_dangling entities r :
  find_ref entities (Some (targetRef r)) = None ->
  resolve_signer stringifyEntityRef entities r = Throws (TypeError_reading "spec").
Proof. unfold resolve_signer. by intros ->. Qed.

Lemma resolve_signer_Returns entities r row :
  resolve_signer stringifyEntityRef entities r = Returns row ->
  find_ref entities (Some (targetRef r)) = Some (signer row)
  /\ exists sp, spec (signer row) = Some sp /\ owner row = find_ref entities (spec_owner sp).
Proof.
  unfold resolve_signer. intros H.
  destruct (find_ref entities (Some (targetRef r))) as [s|]; [|done]. simpl in H.
  destruct (spec s) as [sp|] eqn:Hsp; [|done]. injection H as <-. simpl.
  split; [done|]. by exists sp.
Qed.

Lemma has_part_component_true r p :
  type r = "hasPart" -> parseEntityRef (targetRef r) = inr p -> ref_kind p = "component" ->
  has_part_component parseEntityRef r = Returns true.
Proof. unfold has_part_component. intros -> -> Hkind. simpl. by rewrite Hkind. Qed.

Lemma owned_by_signer_true r p :
  type r = "ownedBy" -> parseEntityRef (targetRef r) = inr p -> ref_kind p <> "group" ->
  owned_by_signer parseEntityRef r = Returns true.
Proof.
  unfold owned_by_signer. intros -> -> Hkind. simpl.
  by apply String.eqb_neq in Hkind as ->.
Qed.

(** A relation whose reference is of kind [group] does not pass the
    test, whatever its type. *)
Lemma owned_by_signer_group r p :
  parseEntityRef (targetRef r) = inr p -> ref_kind p = "group" ->
  owned_by_signer parseEntityRef r = Returns false.
Proof.
  unfold owned_by_signer. intros -> Hkind.
  destruct (String.eqb (type r) "ownedBy"); simpl; [by rewrite Hkind|done].
Qed.

Lemma filterM_elem_of {A : Type} (p : A -> outcome bool) (l k : list A) (x : A) :
  filterM p l = Returns k -> x ∈ k <-> x ∈ l /\ p x = Returns true.
Proof.
  intros [Hall ->]%filterM_Returns. rewrite list_elem_of_In, filter_In, <- list_elem_of_In.
  split; intros [Hin Hp]; (split; [done|]).
  - rewrite Forall_forall in Hall. destruct (Hall x Hin) as [b Hb].
    unfold test_of in Hp. rewrite Hb in Hp. by subst.
  - unfold test_of. by rewrite Hp.
Qed.

(** *** What the collector throws *)

Lemma throws_only_Returns {A : Type} (P : JsError -> Prop) (a : A) :
  throws_only P (Returns a).
Proof. intros e [=]. Qed.

Lemma throws_only_bind {A B : Type} (P : JsError -> Prop) (m : outcome A)
    (f : A -> outcome B) :
  throws_only P m -> (forall a, throws_only P (f a)) -> throws_only P (m ≫= f).
Proof.
  intros Hm Hf e H. destruct m as [a|e'|]; simpl in H; [by apply (Hf a)| |done].
  injection H as <-. by apply Hm.
Qed.

Lemma throws_only_mapM {A B : Type} (P : JsError -> Prop) (f : A -> outcome B)
    (l : list A) :
  (forall x, throws_only P (f x)) -> throws_only P (mapM f l).
Proof.
  intros Hf. induction l as [|x l IH]; [apply throws_only_Returns|].
  rewrite mapM_cons. apply throws_only_bind; [apply Hf|]. intros y.
  apply throws_only_bind; [exact IH|]. intros k. apply throws_only_Returns.
Qed.

Lemma throws_only_filterM {A : Type} (P : JsError -> Prop) (p : A -> outcome bool)
    (l : list A) :
  (forall x, throws_only P (p x)) -> throws_only P (filterM p l).
Proof.
  intros Hp. induction l as [|x l IH]; [apply throws_only_Returns|].
  simpl. apply throws_only_bind; [apply Hp|]. intros b.
  apply throws_only_bind; [exact IH|]. intros k. apply throws_only_Returns.
Qed.

Lemma throws_only_sort_by {A : Type} (P : JsError -> Prop) (key : A -> outcome string)
    (l : list A) :
  (forall x, throws_only P (key x)) -> throws_only P (sort_by key l).
Proof.
  intros Hkey. destruct l as [|x [|y l]]; [apply throws_only_Returns..|].
  unfold Multisigs.sort_by. apply throws_only_bind; [|intros; apply throws_only_Returns].
  apply throws_only_mapM. intros z.
  apply throws_only_bind; [apply Hkey|intros; apply throws_only_Returns].
Qed.

Lemma throws_only_deref {A : Type} (p : string) (x : option A) :
  p ∈ ["relations"; "metadata"; "spec"; "owner"] ->
  throws_only collector_error (deref p x).
Proof. intros Hp e. destruct x; [done|]. intros [= <-]. left. by exists p. Qed.

Lemma throws_only_call {A : Type} (ref : string) (f : CompoundEntityRef -> outcome A) :
  (forall p, throws_only collector_error (f p)) ->
  throws_only collector_error (call (parseEntityRef ref) ≫= f).
Proof.
  intros Hf e. destruct (parseEntityRef ref) as [e'|p] eqn:Hparse; simpl.
  - intros [= <-]. right. by exists ref.
  - apply Hf.
Qed.

Ltac throws_step :=
  first
    [ apply throws_only_Returns
    | apply throws_only_call; intros ?
    | apply throws_only_deref; set_solver
    | apply throws_only_mapM; intros ?
    | apply throws_only_filterM; intros ?
    | apply throws_only_sort_by; intros ?
    | match goal with |- throws_only _ (if ?b then _ else _) => destruct b end
    | match goal with |- throws_only _ (_ ≫= _) => apply throws_only_bind; [|intros ?] end ].

Lemma collectSigners_throws entities multisig :
  throws_only collector_error (collectSigners entities multisig).
Proof.
  unfold Multisigs.collectSigners, owned_by_signer, resolve_signer, owner_name.
  repeat throws_step.
Qed.

Lemma collectComponents_throws entities ms system :
  throws_only collector_error (collectComponents entities ms system).
Proof.
  unfold Multisigs.collectComponents, has_part_component, resolve_component,
    Multisigs.multisigs_of.
  repeat first [apply collectSigners_throws | throws_step].
Qed.

Lemma MultisigsCollector_throws entities :
  throws_only collector_error (MultisigsCollector entities).
Proof.
  unfold Multisigs.MultisigsCollector, Multisigs.collectSystems.
  rewrite system_refs_Returns. unfold resolve_system.
  repeat first [apply collectComponents_throws | throws_step].
Qed.


(** *** Signers *)

Lemma sort_by_returns {A : Type} (key : A -> outcome string) (l : list A) :
  Forall (fun x => exists s, key x = Returns s) l -> exists k, sort_by key l = Returns k.
Proof.
  intros Hkeys. destruct l as [|x [|y l]]; [by eexists..|].
  unfold Multisigs.sort_by.
  rewrite (mapM_pure _ (fun x => (key_of key x, x))); [by eexists|].
  intros z Hz. rewrite Forall_forall in Hkeys. destruct (Hkeys z Hz) as [s Hs].
  unfold key_of. by rewrite Hs.
Qed.

(** X19.  The signers are returned when every [ownedBy] reference is
    well formed and every signer and every owner is in the catalog. *)
Lemma collectSigners_returns entities multisig :
  Forall
    (fun r => type r = "ownedBy" -> exists p, parseEntityRef (targetRef r) = inr p)
    (relations_or_empty multisig) ->
  Forall
    (fun r => exists s sp,
       find_ref entities (Some (targetRef r)) = Some s
       /\ spec s = Some sp
       /\ is_Some (find_ref entities (spec_owner sp)))
    (List.filter (test_of (owned_by_signer parseEntityRef)) (relations_or_empty multisig)) ->
  exists rows, collectSigners entities multisig = Returns rows.
Proof.
  intros Hparse Hresolve. unfold Multisigs.collectSigners.
  rewrite filterM_pure; simpl.
  - set (owned := List.filter _ _) in *. clearbody owned.
    assert (exists entries,
              mapM (resolve_signer stringifyEntityRef entities) owned = Returns entries
              /\ Forall (fun row => exists s, owner_name row = Returns s) entries)
      as (entries & -> & Hentries).
    { induction Hresolve as [|r owned (s & sp & Hs & Hsp & [o Ho]) _ (entries & IH & Hall)].
      - exists []. by split.
      - exists ({| signer := s; owner := Some o |} :: entries). split.
        + rewrite mapM_cons, IH. unfold resolve_signer. rewrite Hs. simpl.
          rewrite Hsp. simpl. by rewrite Ho.
        + constructor; [by eexists|exact Hall]. }
    simpl. by apply sort_by_returns.
  - eapply Forall_impl; [exact Hparse|]. intros r Hr. unfold owned_by_signer.
    destruct (String.eqb (type r) "ownedBy") eqn:E; [|by eexists].
    apply String.eqb_eq in E. destruct (Hr E) as [p ->]. by eexists.
Qed.

Section ConsistentComparator.

(** [localeCompare] is a consistent comparator: a total preorder. *)
Hypothesis localeCompare_total :
  forall a b, (localeCompare a b <= 0)%Z \/ (localeCompare b a <= 0)%Z.
Hypothesis localeCompare_trans :
  forall a b c,
    (localeCompare a b <= 0)%Z -> (localeCompare b c <= 0)%Z -> (localeCompare a c <= 0)%Z.

Lemma StronglySorted_weaken {A : Type} (R1 R2 : A -> A -> Prop) (l : list A) :
  (forall x y, x ∈ l -> y ∈ l -> R1 x y -> R2 x y) ->
  StronglySorted R1 l -> StronglySorted R2 l.
Proof.
  intros HR. induction 1 as [|x l Hl IH Hx]; constructor.
  - apply IH. intros a b Ha Hb. apply HR; by right.
  - rewrite Forall_forall in *. intros y Hy. apply HR; [left|by right|by apply Hx].
Qed.

Lemma sort_by_StronglySorted {A : Type} (key : A -> outcome string) (l k : list A) :
  sort_by key l = Returns k ->
  StronglySorted
    (fun a b => forall ka kb, key a = Returns ka -> key b = Returns kb ->
                              (localeCompare ka kb <= 0)%Z)
    k.
Proof.
  intros [[Hshort ->]|(_ & _ & ->)]%sort_by_Returns.
  - destruct l as [|x [|y l]]; [constructor|repeat constructor|simpl in Hshort; lia].
  - eapply StronglySorted_weaken; [|apply sort_StronglySorted].
    + intros a b _ _ Hab ka kb Ha Hb.
      unfold cmp_le, key_of in Hab. by rewrite Ha, Hb in Hab.
    + intros a b. apply localeCompare_total.
    + intros a b c. apply localeCompare_trans.
Qed.

(** C8.  The signers of an artifact come from its [ownedBy] relations
    whose reference is not of kind [group], one row for each: a relation
    to a group gives no row.  A row pairs the entity found for the
    reference with the entity found for that entity's [spec.owner], and
    the rows are sorted by the owner's name. *)
Theorem group_owners_are_not_signers
    (entities : list Entity) (multisig : Entity) (rows : list MultisigSigner) :
  collectSigners entities multisig = Returns rows ->
  exists owned entries,
    owned = List.filter (test_of (owned_by_signer parseEntityRef))
              (relations_or_empty multisig)
    /\ (forall r p,
          parseEntityRef (targetRef r) = inr p -> ref_kind p = "group" -> r ∉ owned)
    /\ (forall r, r ∈ owned -> type r = "ownedBy")
    /\ Forall2
         (fun r row =>
            find_ref entities (Some (targetRef r)) = Some (signer row)
            /\ exists sp,
                 spec (signer row) = Some sp
                 /\ owner row = find_ref entities (spec_owner sp))
         owned entries
    /\ rows ≡ₚ entries
    /\ StronglySorted by_owner_name rows
    /\ (2 <= length rows -> Forall (fun row => is_Some (owner row)) rows).
Proof.
  intros H. unfold Multisigs.collectSigners in H.
  apply bind_Returns in H as (owned & Howned & H).
  apply bind_Returns in H as (entries & Hentries & H).
  exists owned, entries. split_and!.
  - by apply filterM_Returns in Howned as [_ ->].
  - intros r p Hparse Hkind Hr.
    apply (filterM_elem_of _ _ _ _ Howned) in Hr as [_ Hr].
    by rewrite (owned_by_signer_group r p) in Hr.
  - intros r Hr. apply (filterM_elem_of _ _ _ _ Howned) in Hr as [_ Hr].
    unfold owned_by_signer in Hr.
    destruct (String.eqb (type r) "ownedBy") eqn:E; [by apply String.eqb_eq|done].
  - apply mapM_Returns in Hentries. eapply Forall2_impl; [exact Hentries|].
    intros r row. apply resolve_signer_Returns.
  - by apply sort_by_Permutation in H.
  - apply sort_by_StronglySorted in H.
    eapply StronglySorted_weaken; [|exact H].
    intros a b _ _ Hab oa ob Ha Hb. apply Hab; unfold owner_name; by rewrite ?Ha, ?Hb.
  - intros Hlen. pose proof (sort_by_Permutation _ _ _ H) as Hperm.
    apply sort_by_Returns in H as [[Hshort _]|(_ & Hkeys & _)].
    + rewrite Hperm in Hlen. lia.
    + rewrite Hperm. eapply Forall_impl; [exact Hkeys|].
      intros row [k Hk]. unfold owner_name in Hk. by destruct (owner row).
Qed.

(** *** The order of the input *)

Lemma mapM_Forall2_rel {A B C D : Type} (R : A -> B -> Prop) (R' : C -> D -> Prop)
    (f : A -> outcome C) (g : B -> outcome D) (l : list A) (k : list B) :
  Forall2 R l k ->
  (forall a b, R a b -> outcome_rel R' (f a) (g b)) ->
  outcome_rel (Forall2 R') (mapM f l) (mapM g k).
Proof.
  intros Hlk Hfg. induction Hlk as [|a b l k Hab _ IH]; [by constructor|].
  rewrite !mapM_cons. apply (outcome_rel_bind R'); [by apply Hfg|]. intros c d Hcd.
  apply (outcome_rel_bind (Forall2 R')); [exact IH|].
  intros k1 k2 Hk. simpl. by constructor.
Qed.

Lemma sort_by_rel {A B : Type} (R : A -> B -> Prop)
    (key1 : A -> outcome string) (key2 : B -> outcome string) (l : list A) (k : list B) :
  Forall2 R l k ->
  (forall a b, R a b -> key1 a = key2 b) ->
  outcome_rel (Forall2 R) (sort_by key1 l) (sort_by key2 k).
Proof.
  intros Hlk Hkey.
  destruct Hlk as [|a b l k Hab Hlk]; [by constructor|].
  destruct Hlk as [|a' b' l k Hab' Hlk]; [by repeat constructor|].
  assert (Forall2 R (a :: a' :: l) (b :: b' :: k)) as Hall by by repeat constructor.
  unfold Multisigs.sort_by.
  apply (outcome_rel_bind (Forall2 (fun p q => p.1 = q.1 /\ R p.2 q.2))).
  - apply (mapM_Forall2_rel R); [exact Hall|]. intros x y Hxy.
    rewrite (Hkey x y Hxy). by destruct (key2 y).
  - intros keyed1 keyed2 Hkeyed. simpl.
    apply Forall2_fmap, (Forall2_impl (fun p q => p.1 = q.1 /\ R p.2 q.2)); [|by intros ?? []].
    apply sort_Forall2; [|exact Hkeyed].
    intros p q p' q' [-> _] [-> _]. reflexivity.
Qed.

Section Permuted.

Variable entities : list Entity.
Variables ms1 ms2 : list Entity.
Hypothesis ms_Permutation : ms1 ≡ₚ ms2.

Lemma multisigs_of_Permutation componentRef :
  outcome_rel (≡ₚ) (multisigs_of entities ms1 componentRef)
    (multisigs_of entities ms2 componentRef).
Proof.
  unfold Multisigs.multisigs_of. by apply mapM_Permutation, List_filter_Permutation.
Qed.

Lemma collectComponents_Permutation system :
  outcome_rel (Forall2 same_component)
    (collectComponents entities ms1 system) (collectComponents entities ms2 system).
Proof.
  unfold Multisigs.collectComponents.
  destruct (deref "relations" system) as [sys| |]; simpl; try done.
  destruct (filterM _ (relations_or_empty sys)) as [componentRefs| |]; simpl; try done.
  apply (outcome_rel_bind (Forall2 same_component)).
  - apply mapM_rel. intros r _. unfold resolve_component.
    destruct (deref "metadata" _) as [c| |]; simpl; try done.
    apply (outcome_rel_bind (≡ₚ)); [apply multisigs_of_Permutation|].
    intros k1 k2 Hk. by repeat split.
  - intros rows1 rows2 Hrows. apply sort_by_rel; [exact Hrows|].
    by intros a b (_ & -> & _).
Qed.

End Permuted.

Lemma elem_of_omap_distinct (refs : list (option string)) (a : string) :
  a ∈ omap id (distinct refs) -> Some a ∈ refs.
Proof.
  intros (o & Ho & Hid)%list_elem_of_omap. simpl in Hid. subst o.
  by apply elem_of_distinct.
Qed.

(** The references of the input in another order, when no two different
    ones compare equal. *)
Lemma normalizeEntities_Permutation refs1 refs2 :
  no_ties localeCompare refs1 ->
  refs1 ≡ₚ refs2 -> normalizeEntities refs1 = normalizeEntities refs2.
Proof.
  intros Hties Hrefs. unfold Multisigs.normalizeEntities.
  pose proof (distinct_Permutation _ _ Hrefs) as Hu. f_equal.
  - f_equal. apply sort_unique; auto; [|by rewrite Hu].
    intros a b Ha%elem_of_omap_distinct Hb%elem_of_omap_distinct. by apply Hties.
  - rewrite (bool_decide_ext (None ∈ distinct refs1) (None ∈ distinct refs2)); [done|].
    by rewrite Hu.
Qed.

Lemma system_of_Returns item ref : system_of item = Returns ref -> ref = system_ref item.
Proof.
  unfold system_of, system_ref. destruct (spec item) as [s|]; [|done].
  by intros [= <-].
Qed.

Lemma system_refs_of ms refs : mapM system_of ms = Returns refs -> refs = system_ref <$> ms.
Proof.
  intros H. apply mapM_Returns in H.
  induction H as [|item ref ms refs Href _ IH]; [done|].
  csimpl. by rewrite (system_of_Returns _ _ Href), IH.
Qed.

Lemma collectSystems_Permutation entities ms1 ms2 :
  no_ties localeCompare (system_ref <$> ms1) ->
  ms1 ≡ₚ ms2 ->
  outcome_rel (Forall2 same_system) (collectSystems entities ms1) (collectSystems entities ms2).
Proof.
  intros Hties Hms. unfold Multisigs.collectSystems.
  pose proof (mapM_Permutation system_of ms1 ms2 Hms) as Hrefs.
  destruct (mapM system_of ms1) as [refs1| |] eqn:Hrefs1,
           (mapM system_of ms2) as [refs2| |]; simpl in Hrefs |- *; try done.
  apply system_refs_of in Hrefs1. subst refs1.
  rewrite (normalizeEntities_Permutation _ _ Hties Hrefs).
  apply (outcome_rel_bind (Forall2 same_system)).
  - apply mapM_rel. intros r _. unfold resolve_system.
    apply (outcome_rel_bind (Forall2 same_component));
      [by apply collectComponents_Permutation|].
    intros cs1 cs2 Hcs. destruct (deref "metadata" _) as [sys| |]; simpl; try done.
  - intros rows1 rows2 Hrows. apply sort_by_rel; [exact Hrows|].
    by intros a b (_ & -> & _).
Qed.

(** C5, amended.  For an input without two entities of one reference,
    and in which no two different [system] references of the multisig
    deployments compare equal, the hierarchy of a permuted input has the
    same systems and the same components in the same order, and under
    each component the same artifacts with the same signers; the
    artifacts are listed in the order of the input, so the two results
    are equal when the multisig deployments keep their relative order,
    and equal up to the order of the artifacts under each component
    otherwise.  When one input makes the collector throw, so does the
    other. *)
Theorem hierarchy_of_permuted_input (entities1 entities2 : list Entity) :
  entities1 ≡ₚ entities2 ->
  NoDup (stringifyEntityRef <$> entities1) ->
  no_ties localeCompare (system_ref <$> List.filter is_multisig entities1) ->
  match MultisigsCollector entities1, MultisigsCollector entities2 with
  | Returns h1, Returns h2 => Forall2 same_system h1 h2
  | Throws _, Throws _ => True
  | _, _ => False
  end
  /\ (List.filter is_multisig entities1 = List.filter is_multisig entities2 ->
      MultisigsCollector entities1 = MultisigsCollector entities2).
Proof.
  intros Hperm Hnodup Hties.
  assert (forall ref, find_ref entities1 ref = find_ref entities2 ref) as Hfind
    by (intros ref; by apply find_ref_Permutation).
  split.
  - assert (outcome_rel (Forall2 same_system)
              (MultisigsCollector entities1) (MultisigsCollector entities2)) as Hrel.
    { unfold Multisigs.MultisigsCollector.
      rewrite (collectSystems_ext entities1 entities2 Hfind).
      apply collectSystems_Permutation; [exact Hties|].
      by apply List_filter_Permutation. }
    pose proof (ends_collectSystems entities1 (List.filter is_multisig entities1)) as H1.
    pose proof (ends_collectSystems entities2 (List.filter is_multisig entities2)) as H2.
    unfold Multisigs.MultisigsCollector in *.
    destruct (collectSystems entities1 _), (collectSystems entities2 _); done.
  - intros Hsame. unfold Multisigs.MultisigsCollector. rewrite Hsame.
    by apply collectSystems_ext.
Qed.

End ConsistentComparator.

End CatalogModel.

(** *** The instances, and the worked inputs *)

Lemma localeCompare_le (a b : string) :
  (Instances.localeCompare a b <= 0)%Z <-> String.compare a b <> Gt.
Proof. unfold Instances.localeCompare. destruct (String.compare a b); split; (done || lia). Qed.

Lemma localeCompare_total (a b : string) :
  (Instances.localeCompare a b <= 0)%Z \/ (Instances.localeCompare b a <= 0)%Z.
Proof.
  rewrite !localeCompare_le, (String.compare_antisym a b).
  destruct (String.compare b a); simpl; auto.
Qed.

Lemma localeCompare_antisym (a b : string) :
  (Instances.localeCompare a b <= 0)%Z -> (Instances.localeCompare b a <= 0)%Z -> a = b.
Proof.
  rewrite !localeCompare_le, (String.compare_antisym a b).
  destruct (String.compare b a) eqn:E; simpl; try done.
  intros _ _. symmetry. by apply String.compare_eq_iff.
Qed.

Lemma localeCompare_trans (a b c : string) :
  (Instances.localeCompare a b <= 0)%Z -> (Instances.localeCompare b c <= 0)%Z ->
  (Instances.localeCompare a c <= 0)%Z.
Proof.
  rewrite !localeCompare_le. intros Hab Hbc.
  destruct (String.compare a b) eqn:Eab; [|clear Hab|done].
  { apply String.compare_eq_iff in Eab as ->. exact Hbc. }
  destruct (String.compare b c) eqn:Ebc; [|clear Hbc|done].
  { apply String.compare_eq_iff in Ebc as <-. by rewrite Eab. }
  apply String_as_OT.cmp_lt in Eab, Ebc.
  pose proof (String_as_OT.lt_trans _ _ _ Eab Ebc) as Hac.
  apply String_as_OT.cmp_lt in Hac. unfold String_as_OT.cmp in Hac. by rewrite Hac.
Qed.

Import Examples.

Local Abbreviation ref_of := Instances.stringifyEntityRef.
Local Abbreviation parse := Instances.parseEntityRef.
Local Abbreviation cmp := Instances.localeCompare.



(** C7, counterexample.  [S1] and [S1_again] are two entities with the
    reference [system:default/s1]; the collector raises nothing and
    builds the hierarchy with the one that comes first. *)
Lemma duplicate_reference_raises_nothing :
  S1 <> S1_again
  /\ ref_of S1 = ref_of S1_again
  /\ collect [S1; S1_again; C1; A1; U1; O1; G1] = Returns (hierarchy [info A1 (Some O1)]).
Proof. split; [discriminate|]. by vm_compute. Qed.

Lemma duplicate_reference_first_wins_witness :
  let entities := ([] ++ S1 :: [] ++ S1_again :: [C1; A1; U1; O1; G1])%list in
  find_ref ref_of entities (Some (ref_of S1)) = Some S1
  /\ (forall ref,
        find_ref ref_of entities ref = find_ref ref_of ([] ++ S1 :: [] ++ [C1; A1; U1; O1; G1]) ref)
  /\ (is_multisig S1_again = false ->
      collect entities = collect ([] ++ S1 :: [] ++ [C1; A1; U1; O1; G1])).
Proof.
  apply (duplicate_reference_first_wins ref_of parse cmp [] [] [C1; A1; U1; O1; G1]
           S1 S1_again).
  - reflexivity.
  - intros x Hx. by apply elem_of_nil in Hx.
Defined.

(** C8: the scenario. *)
Lemma group_owners_are_not_signers_witness :
  exists owned entries,
    owned = List.filter (test_of (owned_by_signer parse)) (relations_or_empty A1)
    /\ (forall r p, parse (targetRef r) = inr p -> ref_kind p = "group" -> r ∉ owned)
    /\ (forall r, r ∈ owned -> type r = "ownedBy")
    /\ Forall2
         (fun r row =>
            find_ref ref_of [S1; C1; A1; U1; O1; G1] (Some (targetRef r)) = Some (signer row)
            /\ exists sp,
                 spec (signer row) = Some sp
                 /\ owner row = find_ref ref_of [S1; C1; A1; U1; O1; G1] (spec_owner sp))
         owned entries
    /\ [ {| signer := U1; owner := Some O1 |} ] ≡ₚ entries
    /\ StronglySorted (by_owner_name cmp) [ {| signer := U1; owner := Some O1 |} ]
    /\ (2 <= length [ {| signer := U1; owner := Some O1 |} ] ->
        Forall (fun row => is_Some (owner row)) [ {| signer := U1; owner := Some O1 |} ]).
Proof.
  apply (group_owners_are_not_signers ref_of parse cmp
           localeCompare_total localeCompare_trans [S1; C1; A1; U1; O1; G1] A1).
  reflexivity.
Defined.

(** C5, counterexample.  The two deployments of [c1] are listed in the
    order of the input; and of two entities with one reference the
    first one is used. *)
Lemma artifacts_follow_input_order :
  [S1; C1; A1; A2; U1; O1; G1] ≡ₚ [S1; C1; A2; A1; U1; O1; G1]
  /\ collect [S1; C1; A1; A2; U1; O1; G1]
     = Returns (hierarchy [info A1 (Some O1); info A2 (Some O1)])
  /\ collect [S1; C1; A2; A1; U1; O1; G1]
     = Returns (hierarchy [info A2 (Some O1); info A1 (Some O1)])
  /\ collect [S1; C1; A1; A2; U1; O1; G1] <> collect [S1; C1; A2; A1; U1; O1; G1]
  /\ collect [S1; S1_again; C1; A1; U1; O1; G1] <> collect [S1_again; S1; C1; A1; U1; O1; G1].
Proof.
  split_and!.
  - do 2 apply perm_skip. apply perm_swap.
  - by vm_compute.
  - by vm_compute.
  - by vm_compute.
  - by vm_compute.
Qed.

(** The condition on ties cannot be left out.  With a comparison that is
    total and transitive and has ties, and a catalog without two
    entities of one reference, two systems whose names compare equal
    come in the order in which the input lists their deployments. *)
Lemma tied_systems_follow_input_order :
  let cmp' := Instances.localeCompare_ignoring_controls in
  (forall a b, (cmp' a b <= 0)%Z \/ (cmp' b a <= 0)%Z)
  /\ (forall a b c, (cmp' a b <= 0)%Z -> (cmp' b c <= 0)%Z -> (cmp' a c <= 0)%Z)
  /\ [Sa; Sb; Aa; Ab] ≡ₚ [Sa; Sb; Ab; Aa]
  /\ NoDup (ref_of <$> [Sa; Sb; Aa; Ab])
  /\ ~ no_ties cmp' (system_ref <$> List.filter is_multisig [Sa; Sb; Aa; Ab])
  /\ collect_ignoring_controls [Sa; Sb; Aa; Ab]
     = Returns [system_without_components Sa; system_without_components Sb]
  /\ collect_ignoring_controls [Sa; Sb; Ab; Aa]
     = Returns [system_without_components Sb; system_without_components Sa].
Proof.
  cbv zeta. split_and!.
  - intros a b. apply localeCompare_total.
  - intros a b c. apply localeCompare_trans.
  - do 2 apply perm_skip. apply perm_swap.
  - apply (bool_decide_unpack _). by vm_compute.
  - intros Hties.
    assert ("system:default/a" = "system:default/a" ++ String "001" "") as Heq; [|done].
    apply Hties; [apply (bool_decide_unpack _); by vm_compute..|by vm_compute|by vm_compute].
  - by vm_compute.
  - by vm_compute.
Qed.

Lemma hierarchy_of_permuted_input_witness :
  match collect [S1; C1; A1; A2; U1; O1; G1], collect [S1; C1; A2; A1; U1; O1; G1] with
  | Returns h1, Returns h2 => Forall2 same_system h1 h2
  | Throws _, Throws _ => True
  | _, _ => False
  end
  /\ (List.filter is_multisig [S1; C1; A1; A2; U1; O1; G1]
      = List.filter is_multisig [S1; C1; A2; A1; U1; O1; G1] ->
      collect [S1; C1; A1; A2; U1; O1; G1] = collect [S1; C1; A2; A1; U1; O1; G1]).
Proof.
  apply (hierarchy_of_permuted_input ref_of parse cmp
           localeCompare_total localeCompare_trans).
  - do 2 apply perm_skip. apply perm_swap.
  - apply (bool_decide_unpack _). by vm_compute.
  - intros a b _ _. apply localeCompare_antisym.
Defined.

End MultisigsFacts.

(** ** More on the component matrix *)

Module MatrixMore.

Import Matrix Examples MatrixFacts.

(** *** [split] and [join] *)

Lemma split_without_separator (sep : ascii) (s : string) :
  has_char sep s = false -> split sep s = [s].
Proof.
  induction s as [|c s IH]; simpl; [done|].
  intros [Hc Hs]%orb_false_iff. by rewrite Hc, (IH Hs).
Qed.

Lemma split_app_separator (sep : ascii) (s t : string) :
  has_char sep s = false ->
  split sep (s ++ String sep t) = s :: split sep t.
Proof.
  induction s as [|c s IH]; simpl.
  - intros _. by rewrite Ascii.eqb_refl.
  - intros [Hc Hs]%orb_false_iff. by rewrite Hc, (IH Hs).
Qed.

(** Splitting what was joined gives the segments back. *)
Lemma split_join (sep : ascii) (l : list string) :
  l <> [] -> Forall (fun s => has_char sep s = false) l ->
  split sep (join (String sep "") l) = l.
Proof.
  intros Hne Hl. unfold join. induction Hl as [|s l Hs Hl IH]; [done|].
  destruct l as [|s' l].
  - simpl. by apply split_without_separator.
  - change (String.concat (String sep "") (s :: s' :: l))
      with (s ++ String sep (String.concat (String sep "") (s' :: l))).
    rewrite split_app_separator by done. by rewrite IH.
Qed.

Lemma split_not_nil (sep : ascii) (s : string) : split sep s <> [].
Proof.
  induction s as [|c s IH]; simpl; [done|].
  destruct (Ascii.eqb c sep); [done|]. by destruct (split sep s).
Qed.

(** *** [sourceLocationDir] *)

(** X1.  For an annotation of seven segments, then the segments of a
    directory, then one last segment (empty when the annotation ends in
    a slash), [sourceLocationDir] is the directory: the seven leading
    segments and the last one are dropped. *)
Theorem sourceLocationDir_of_annotation
    (entity : Entity) (leading directory : list string) (last : string) :
  sourceLocation entity = Some (join "/" (leading ++ directory ++ [last])) ->
  length leading = 7 ->
  Forall (fun s => has_char "/" s = false) (leading ++ directory ++ [last]) ->
  sourceLocationDir entity = Returns (join "/" directory).
Proof.
  intros Hloc Hlen Hsegments. unfold sourceLocationDir. rewrite Hloc. simpl.
  rewrite split_join; [|by destruct leading|done].
  unfold slice_to_last. rewrite (app_assoc leading), removelast_last.
  by rewrite <- Hlen, drop_app_length.
Qed.

Lemma sourceLocationDir_of_annotation_witness :
  sourceLocationDir in_contracts = Returns (join "/" ["contracts"]).
Proof.
  apply (sourceLocationDir_of_annotation in_contracts
           ["url:https:"; ""; "github.com"; "o"; "r"; "tree"; "main"] ["contracts"] "").
  - reflexivity.
  - reflexivity.
  - apply (bool_decide_unpack _). by vm_compute.
Defined.

(** X2.  An annotation of eight segments or fewer gives the empty path,
    not an error. *)
Theorem sourceLocationDir_of_short_annotation (entity : Entity) (loc : string) :
  sourceLocation entity = Some loc ->
  length (split "/" loc) <= 8 ->
  sourceLocationDir entity = Returns "".
Proof.
  intros Hloc Hlen. unfold sourceLocationDir. rewrite Hloc. simpl.
  unfold slice_to_last. rewrite drop_ge; [done|].
  destruct (split "/" loc) as [|s l _] using rev_ind; [simpl; lia|].
  rewrite removelast_last. rewrite length_app in Hlen. simpl in Hlen. lia.
Qed.

Lemma sourceLocationDir_of_short_annotation_witness :
  sourceLocationDir (contract (Some []) (Some "url:https://github.com/o/r/tree/main/"))
  = Returns "".
Proof.
  apply (sourceLocationDir_of_short_annotation _ "url:https://github.com/o/r/tree/main/").
  - reflexivity.
  - by vm_compute.
Defined.

(** *** [findRoot] *)

Lemma prefix_snoc_inv {A : Type} (d l : list A) (x : A) :
  d `prefix_of` (l ++ [x])%list -> d = (l ++ [x])%list \/ d `prefix_of` l.
Proof.
  intros [k Hk]. destruct k as [|y k _] using rev_ind.
  - left. by rewrite app_nil_r in Hk.
  - right. rewrite app_assoc in Hk. apply app_inj_tail in Hk as [-> _]. by exists k.
Qed.

Section FileSystem.

Variable existsSync : string -> bool.

Lemma findRoot_loop_above rootFile fuel : forall dirs result,
  findRoot_loop existsSync fuel rootFile dirs = Returns result ->
  result `prefix_of` pop dirs.
Proof.
  induction fuel as [|fuel IH]; intros dirs result; [done|]. simpl.
  destruct (existsSync _).
  - by intros [= <-].
  - intros H. etrans; [by apply IH|apply pop_prefix].
Qed.

(** X3.  [findRoot] never returns the path it was given: what it returns
    is the root, or the path of a proper ancestor directory. *)
Theorem findRoot_returns_proper_ancestor (fuel : nat) (fileName rootFile root : string) :
  findRoot existsSync fuel fileName rootFile = Returns root ->
  root = "./"
  \/ exists d, d <> [] /\ d `prefix_of` pop (split "/" fileName) /\ root = join "/" d.
Proof.
  unfold findRoot. intros (dirs & Hdirs & [= <-])%bind_Returns.
  apply findRoot_loop_above in Hdirs.
  destruct dirs as [|s dirs]; [by left|]. right. by exists (s :: dirs).
Qed.

Lemma findRoot_loop_marker_met rootFile fuel : forall dirs result,
  findRoot_loop existsSync fuel rootFile dirs = Returns result ->
  exists d, d `prefix_of` dirs /\ existsSync (path.join ("./" :: d ++ [rootFile])) = true.
Proof.
  induction fuel as [|fuel IH]; intros dirs result; [done|]. simpl.
  destruct (existsSync _) eqn:E.
  - intros _. by exists dirs.
  - intros (d & Hd & Hmarker)%IH. exists d. split; [|done].
    etrans; [exact Hd|apply pop_prefix].
Qed.

Lemma findRoot_loop_returns_with_marker rootFile : forall dirs d,
  d `prefix_of` dirs ->
  existsSync (path.join ("./" :: d ++ [rootFile])) = true ->
  exists result, findRoot_loop existsSync (S (length dirs)) rootFile dirs = Returns result.
Proof.
  induction dirs as [|x dirs IH] using rev_ind; intros d Hd Hmarker.
  - apply prefix_nil_inv in Hd as ->. exists (pop []). by apply findRoot_loop_found.
  - destruct (existsSync (path.join ("./" :: (dirs ++ [x]) ++ [rootFile]))) eqn:E.
    + exists (pop (dirs ++ [x])). by apply findRoot_loop_found.
    + apply prefix_snoc_inv in Hd as [->|Hd]; [congruence|].
      destruct (IH d Hd Hmarker) as [result Hresult]. exists result.
      rewrite findRoot_loop_not_found by exact E.
      rewrite length_app, pop_snoc. simpl length. by rewrite Nat.add_1_r.
Qed.

(** X5.  [findRoot] returns exactly when the marker is in the directory
    of the path or in one above it, the root included; it then needs no
    more iterations than the path has segments, plus one. *)
Theorem findRoot_returns_iff_marker (fileName rootFile : string) :
  let marker_above :=
    exists d, d `prefix_of` split "/" fileName
              /\ existsSync (path.join ("./" :: d ++ [rootFile])) = true in
  (marker_above ->
   exists root, forall n,
     findRoot existsSync (S (length (split "/" fileName)) + n) fileName rootFile
     = Returns root)
  /\ (forall fuel root,
        findRoot existsSync fuel fileName rootFile = Returns root -> marker_above).
Proof.
  split.
  - intros (d & Hd & Hmarker).
    destruct (findRoot_loop_returns_with_marker rootFile _ d Hd Hmarker) as [dirs Hdirs].
    eexists. intros n. unfold findRoot.
    by rewrite (findRoot_loop_more_fuel _ _ _ _ _ n Hdirs).
  - unfold findRoot. intros fuel root (dirs & Hdirs & _)%bind_Returns.
    by eapply findRoot_loop_marker_met.
Qed.

End FileSystem.

Lemma findRoot_returns_proper_ancestor_witness :
  "a" = "./"
  \/ exists d, d <> [] /\ d `prefix_of` pop (split "/" "a/b/c/file.sol") /\ "a" = join "/" d.
Proof.
  apply (findRoot_returns_proper_ancestor (only "a/b/package.json") 3
           "a/b/c/file.sol" "package.json").
  reflexivity.
Defined.

(** X4: the marker is in [a/b] and nowhere below. *)
Lemma findRoot_parent_of_deepest_marker_witness :
  findRoot (only "a/b/package.json") (S (length ["c"; "file.sol"]) + 0)
    "a/b/c/file.sol" "package.json"
  = Returns (if (0 <? length (pop ["a"; "b"]))%nat then join "/" (pop ["a"; "b"]) else "./").
Proof.
  apply (findRoot_parent_of_deepest_marker (only "a/b/package.json")
           "a/b/c/file.sol" "package.json" ["a"; "b"] ["c"; "file.sol"] 0).
  - reflexivity.
  - reflexivity.
  - intros more Hmore Hprefix. apply prefix_app_inv in Hprefix.
    destruct more as [|s1 [|s2 [|s3 more]]]; [done| | |].
    + apply prefix_cons_inv_1 in Hprefix as ->. reflexivity.
    + pose proof (prefix_cons_inv_1 _ _ _ _ Hprefix) as ->.
      apply prefix_cons_inv_2, prefix_cons_inv_1 in Hprefix as ->. reflexivity.
    + apply prefix_length in Hprefix. simpl in Hprefix. lia.
Defined.

(** *** The rows of the matrix *)

Lemma filter_filter {A : Type} (p q : A -> bool) (l : list A) :
  List.filter q (List.filter p l) = List.filter (fun x => p x && q x) l.
Proof.
  induction l as [|x l IH]; simpl; [done|].
  destruct (p x); simpl; [|done]. destruct (q x); by rewrite IH.
Qed.

Lemma contractItems_filter repoUrl items :
  contractItems repoUrl items = List.filter (is_candidate repoUrl) items.
Proof. unfold contractItems. apply filter_filter. Qed.

Lemma Forall2_elem_of_l {A B : Type} (P : A -> B -> Prop) (l : list A) (k : list B) :
  Forall2 P l k -> Forall2 (fun x y => x ∈ l /\ P x y) l k.
Proof.
  induction 1 as [|x y l k Hxy _ IH]; constructor.
  - split; [left|done].
  - eapply Forall2_impl; [exact IH|]. intros a b [Ha Hab]. split; [by right|done].
Qed.

Lemma Forall2_Forall_right {A B : Type} (P : A -> B -> Prop) (Q : B -> Prop)
    (l : list A) (k : list B) :
  Forall2 P l k -> (forall x y, P x y -> Q y) -> Forall Q k.
Proof. intros H HPQ. induction H; constructor; eauto. Qed.

Section FileSystemRows.

Variable existsSync : string -> bool.

(** X6.  When the matrix is returned it has one row for each candidate,
    in the order of the catalog, impacted or not: the row of a candidate
    has its name, its tags, its source directory and the root found
    from that directory. *)
Theorem matrix_has_a_row_for_every_candidate
    (fuel : nat) (repoUrl : string) (eventName : option string)
    (items : list Entity) (changedFiles : list ChangedFile) (rows : list Row) :
  generateComponentMatrix existsSync fuel repoUrl eventName items changedFiles
  = Returns rows ->
  Forall2
    (fun item row =>
       row_name row = name (metadata item)
       /\ tags (metadata item) = Some (row_tags row)
       /\ sourceLocationDir item = Returns (row_path row)
       /\ findRoot existsSync fuel (row_path row) "package.json" = Returns (nodeRoot row))
    (List.filter (is_candidate repoUrl) items) rows.
Proof.
  unfold generateComponentMatrix. rewrite contractItems_filter. intros H.
  apply mapM_Returns in H. eapply Forall2_impl; [exact H|].
  intros item row Hrow. simpl in Hrow.
  apply matrixRow_Returns in Hrow as (item_tags & Htags & Hname & <- & Hpath & Hroot & _).
  done.
Qed.

(** X8.  On a pull request the flag of a row is the tag test and the
    test of the changed files against the annotation itself: some
    changed path has to start with the whole [url:...] text of the
    candidate's source location.  Without changed files no row is
    flagged. *)
Theorem pull_request_flag
    (fuel : nat) (repoUrl : string) (items : list Entity)
    (changedFiles : list ChangedFile) (rows : list Row) :
  generateComponentMatrix existsSync fuel repoUrl (Some "pull_request") items changedFiles
  = Returns rows ->
  Forall2
    (fun item row =>
       exists loc,
         sourceLocation item = Some loc
         /\ runSlither row
            = isSolidity (row_tags row)
              && existsb (fun f => startsWith (file f) loc) changedFiles)
    (List.filter (is_candidate repoUrl) items) rows
  /\ (changedFiles = [] -> Forall (fun row => runSlither row = false) rows).
Proof.
  unfold generateComponentMatrix. rewrite contractItems_filter. intros H.
  apply mapM_Returns, Forall2_elem_of_l in H.
  assert (Forall2
            (fun item row =>
               exists loc,
                 sourceLocation item = Some loc
                 /\ runSlither row
                    = isSolidity (row_tags row)
                      && existsb (fun f => startsWith (file f) loc) changedFiles)
            (List.filter (is_candidate repoUrl) items) rows) as Hrows.
  { eapply Forall2_impl; [exact H|]. intros item row [Hin Hrow]. simpl in Hrow.
    apply matrixRow_Returns in Hrow as (item_tags & _ & _ & <- & _ & _ & ->).
    change (forceAll (Some "pull_request")) with false.
    rewrite includes_changedContracts by exact Hin.
    rewrite <- contractItems_filter in Hin.
    destruct (contractItems_sourceLocation _ _ _ Hin) as [loc Hloc].
    exists loc. by rewrite Hloc. }
  split; [exact Hrows|]. intros ->.
  eapply Forall2_Forall_right; [exact Hrows|].
  intros item row (loc & _ & ->). simpl. apply andb_false_r.
Qed.

(** X9.  A candidate tagged [near] is never flagged, whatever the event
    and the changed files. *)
Theorem near_is_never_flagged
    (fuel : nat) (repoUrl : string) (eventName : option string)
    (items : list Entity) (changedFiles : list ChangedFile) (rows : list Row) :
  generateComponentMatrix existsSync fuel repoUrl eventName items changedFiles
  = Returns rows ->
  Forall (fun row => "near" ∈ row_tags row -> runSlither row = false) rows.
Proof.
  unfold generateComponentMatrix. intros H. apply mapM_Returns in H.
  eapply Forall2_Forall_right; [exact H|]. intros item row Hrow Hnear. simpl in Hrow.
  apply matrixRow_Returns in Hrow as (item_tags & _ & _ & <- & _ & _ & ->).
  unfold isSolidity, includes.
  assert (existsb (String.eqb "near") (row_tags row) = true) as ->; [|done].
  apply existsb_exists. exists "near". split; [by apply list_elem_of_In|].
  apply String.eqb_refl.
Qed.

(** X10.  An entity that is not a contract of the repository (another
    type, another repository, no annotation) has no influence on the
    matrix. *)
Theorem other_entities_do_not_matter
    (fuel : nat) (repoUrl : string) (eventName : option string)
    (before after : list Entity) (item : Entity) (changedFiles : list ChangedFile) :
  is_candidate repoUrl item = false ->
  generateComponentMatrix existsSync fuel repoUrl eventName (before ++ item :: after)
    changedFiles
  = generateComponentMatrix existsSync fuel repoUrl eventName (before ++ after) changedFiles.
Proof.
  intros Hitem. unfold generateComponentMatrix. rewrite !contractItems_filter.
  rewrite !List.filter_app. simpl. by rewrite Hitem.
Qed.

Lemma mapM_app {A B : Type} (f : A -> outcome B) (l1 l2 : list A) :
  mapM f (l1 ++ l2)
  = k1 ← mapM f l1; k2 ← mapM f l2; mret (k1 ++ k2)%list.
Proof.
  induction l1 as [|x l1 IH].
  - simpl. by destruct (mapM f l2).
  - rewrite <- app_comm_cons, !mapM_cons, IH.
    destruct (f x); simpl; [|done..].
    destruct (mapM f l1); simpl; [|done..]. by destruct (mapM f l2).
Qed.

Lemma impacted_changedContracts force candidates changedFiles item :
  item ∈ candidates ->
  impacted force (changedContracts candidates changedFiles) item
  = force
    || existsb (fun f => startsWith (file f) (default "undefined" (sourceLocation item)))
         changedFiles.
Proof.
  intros Hin. destruct force; [done|]. by apply includes_changedContracts.
Qed.

(** X20.  The row of a candidate does not depend on the other entities
    of the catalog: the matrix of two catalogs put together is the
    matrix of the first followed by the matrix of the second, and it
    fails where the first of the two fails. *)
Theorem matrix_of_concatenation
    (fuel : nat) (repoUrl : string) (eventName : option string)
    (items1 items2 : list Entity) (changedFiles : list ChangedFile) :
  generateComponentMatrix existsSync fuel repoUrl eventName (items1 ++ items2) changedFiles
  = rows1 ← generateComponentMatrix existsSync fuel repoUrl eventName items1 changedFiles;
    rows2 ← generateComponentMatrix existsSync fuel repoUrl eventName items2 changedFiles;
    mret (rows1 ++ rows2)%list.
Proof.
  assert (forall candidates1 candidates2,
            (forall item, item ∈ candidates1 -> item ∈ candidates2) ->
            mapM (matrixRow existsSync fuel (forceAll eventName)
                    (changedContracts candidates2 changedFiles)) candidates1
            = mapM (matrixRow existsSync fuel (forceAll eventName)
                      (changedContracts candidates1 changedFiles)) candidates1) as Hrows.
  { intros candidates1 candidates2 Hsub. apply mapM_ext_in. intros item Hin.
    unfold matrixRow.
    by rewrite (impacted_changedContracts _ candidates1), (impacted_changedContracts _ candidates2)
      by auto. }
  unfold generateComponentMatrix. rewrite contractItems_app, mapM_app.
  rewrite (Hrows (contractItems repoUrl items1)
             (contractItems repoUrl items1 ++ contractItems repoUrl items2)%list)
    by (intros item Hin; apply elem_of_app; by left).
  rewrite (Hrows (contractItems repoUrl items2)
             (contractItems repoUrl items1 ++ contractItems repoUrl items2)%list)
    by (intros item Hin; apply elem_of_app; by right).
  reflexivity.
Qed.

End FileSystemRows.

Lemma matrix_has_a_row_for_every_candidate_witness :
  Forall2
    (fun item row =>
       row_name row = name (metadata item)
       /\ tags (metadata item) = Some (row_tags row)
       /\ sourceLocationDir item = Returns (row_path row)
       /\ findRoot everywhere 1 (row_path row) "package.json" = Returns (nodeRoot row))
    (List.filter (is_candidate repoUrl) [in_contracts; without_annotation; in_contracts2])
    [row_in "contracts" ["ethereum"] false; row_in "contracts2" ["ethereum"] false].
Proof.
  apply (matrix_has_a_row_for_every_candidate everywhere 1 repoUrl (Some "pull_request")
           [in_contracts; without_annotation; in_contracts2] Foo_changed).
  by vm_compute.
Defined.

(** X7: a repository with a [package.json] in its root only. *)
Lemma generateComponentMatrix_returns_witness :
  exists enough, forall fuel, enough <= fuel ->
    exists rows,
      generateComponentMatrix (only "package.json") fuel repoUrl None
        [in_contracts; in_contracts2] Foo_changed
      = Returns rows.
Proof.
  apply (generateComponentMatrix_returns (only "package.json") repoUrl None
           [in_contracts; in_contracts2] Foo_changed).
  - reflexivity.
  - apply (bool_decide_unpack _). by vm_compute.
Defined.

Lemma pull_request_flag_witness :
  Forall2
    (fun item row =>
       exists loc,
         sourceLocation item = Some loc
         /\ runSlither row
            = isSolidity (row_tags row)
              && existsb (fun f => startsWith (file f) loc) Foo_changed)
    (List.filter (is_candidate repoUrl) [in_contracts; in_contracts2])
    [row_in "contracts" ["ethereum"] false; row_in "contracts2" ["ethereum"] false]
  /\ (Foo_changed = [] ->
      Forall (fun row => runSlither row = false)
        [row_in "contracts" ["ethereum"] false; row_in "contracts2" ["ethereum"] false]).
Proof.
  apply (pull_request_flag everywhere 1 repoUrl [in_contracts; in_contracts2] Foo_changed).
  by vm_compute.
Defined.

Lemma near_is_never_flagged_witness :
  Forall (fun row => "near" ∈ row_tags row -> runSlither row = false)
    [row_in "contracts" ["near"; "rust"] false; row_in "contracts" ["ethereum"] true].
Proof.
  apply (near_is_never_flagged everywhere 1 repoUrl (Some "push")
           [near_contract; in_contracts] []).
  by vm_compute.
Defined.

Lemma other_entities_do_not_matter_witness :
  generateComponentMatrix everywhere 1 repoUrl None ([in_contracts] ++ G1 :: [in_contracts2]) []
  = generateComponentMatrix everywhere 1 repoUrl None ([in_contracts] ++ [in_contracts2]) [].
Proof.
  apply (other_entities_do_not_matter everywhere 1 repoUrl None
           [in_contracts] [in_contracts2] G1 []).
  reflexivity.
Defined.

End MatrixMore.

(** ** More on the multisig hierarchy *)

Module MultisigsMore.

Import Multisigs MultisigsSpec MultisigsFacts Examples.

Lemma NoDup_omap_id {A : Type} (l : list (option A)) : NoDup l -> NoDup (omap id l).
Proof.
  induction 1 as [|[a|] l Hx _ IH]; csimpl; [constructor| |done].
  constructor; [|done]. intros (o & Ho & Hid)%list_elem_of_omap. simpl in Hid. by subst.
Qed.

Section CatalogModel.

Variable stringifyEntityRef : Entity -> string.
Variable parseEntityRef : string -> JsError + CompoundEntityRef.
Variable localeCompare : string -> string -> Z.

Local Abbreviation find_ref := (find_ref stringifyEntityRef).
Local Abbreviation collectSigners := (collectSigners stringifyEntityRef parseEntityRef localeCompare).
Local Abbreviation collectComponents :=
  (collectComponents stringifyEntityRef parseEntityRef localeCompare).
Local Abbreviation MultisigsCollector :=
  (MultisigsCollector stringifyEntityRef parseEntityRef localeCompare).
Local Abbreviation normalizeEntities := (normalizeEntities localeCompare).

(** *** [normalizeEntities] *)

Lemma NoDup_normalizeEntities refs : NoDup (normalizeEntities refs).
Proof.
  unfold Multisigs.normalizeEntities. apply NoDup_app. split_and!.
  - apply (NoDup_fmap_2 Some). rewrite sort_Permutation.
    apply NoDup_omap_id, NoDup_distinct.
  - intros x (s & -> & _)%list_elem_of_fmap Hnone.
    case_bool_decide; [|by apply elem_of_nil in Hnone].
    by apply list_elem_of_singleton in Hnone.
  - case_bool_decide; [apply NoDup_singleton|apply NoDup_nil_2].
Qed.

(** *** What the levels of a returned hierarchy hold *)

Lemma Forall2_elem_of_r {A B : Type} (P : A -> B -> Prop) (l : list A) (k : list B) (y : B) :
  Forall2 P l k -> y ∈ k -> exists x, x ∈ l /\ P x y.
Proof.
  induction 1 as [|a b l k Hab _ IH]; [by intros ?%elem_of_nil|].
  intros [->|Hy]%elem_of_cons.
  - exists a. split; [left|done].
  - destruct (IH Hy) as (x & Hx & Hxy). exists x. split; [by right|done].
Qed.

Lemma Forall2_fmap_eq {A B C : Type} (f : A -> C) (g : B -> C) (l : list A) (k : list B) :
  Forall2 (fun x y => f x = g y) l k -> f <$> l = g <$> k.
Proof. induction 1 as [|x y l k Hxy _ IH]; csimpl; [done|]. by rewrite Hxy, IH. Qed.

Lemma find_ref_found entities ref item :
  find_ref entities ref = Some item ->
  item ∈ entities /\ ref = Some (stringifyEntityRef item).
Proof.
  intros [Hin Href]%find_some. split; [by apply list_elem_of_In|].
  by apply bool_decide_eq_true in Href.
Qed.

Lemma multisigs_of_Returns entities ms r infos :
  multisigs_of stringifyEntityRef parseEntityRef localeCompare entities ms r = Returns infos ->
  entity <$> infos = List.filter (provided_by r) ms
  /\ Forall (fun m => collectSigners entities (entity m) = Returns (signers m)) infos.
Proof.
  unfold multisigs_of. intros H. apply mapM_Returns in H.
  induction H as [|m info l infos Hinfo _ [IH1 IH2]]; [by split|].
  apply bind_Returns in Hinfo as (s & Hs & [= <-]).
  split; [csimpl; by rewrite IH1|]. by constructor.
Qed.

Lemma resolve_component_Returns entities ms r c :
  resolve_component stringifyEntityRef parseEntityRef localeCompare entities ms r = Returns c ->
  find_ref entities (Some (targetRef r)) = Some (component c)
  /\ cm_title c = or_else (title (metadata (component c))) (name (metadata (component c)))
  /\ multisigs_of stringifyEntityRef parseEntityRef localeCompare entities ms r
     = Returns (multisigs c).
Proof.
  unfold resolve_component.
  destruct (find_ref entities (Some (targetRef r))) as [e|]; [|done]. simpl.
  intros (infos & Hinfos & [= <-])%bind_Returns. by simpl.
Qed.

Lemma collectComponents_Returns entities ms sys cs :
  collectComponents entities ms (Some sys) = Returns cs ->
  exists entries,
    Forall2
      (fun r c =>
         resolve_component stringifyEntityRef parseEntityRef localeCompare entities ms r
         = Returns c)
      (List.filter (test_of (has_part_component parseEntityRef)) (relations_or_empty sys))
      entries
    /\ sort_by localeCompare (fun a => mret (name (metadata (component a)))) entries
       = Returns cs.
Proof.
  unfold Multisigs.collectComponents. simpl.
  intros (refs & Hrefs & (entries & Hentries & H)%bind_Returns)%bind_Returns.
  apply filterM_Returns in Hrefs as [_ ->]. apply mapM_Returns in Hentries.
  by exists entries.
Qed.

Lemma resolve_system_Returns entities ms ref row :
  resolve_system stringifyEntityRef parseEntityRef localeCompare entities ms ref = Returns row ->
  find_ref entities ref = Some (system row)
  /\ sc_title row = or_else (title (metadata (system row))) (name (metadata (system row)))
  /\ collectComponents entities ms (Some (system row)) = Returns (components row).
Proof.
  unfold resolve_system.
  destruct (find_ref entities ref) as [sys|].
  - intros (cs & Hcs & [= <-])%bind_Returns. by simpl.
  - by intros (cs & Hcs & _)%bind_Returns.
Qed.

Lemma MultisigsCollector_Returns entities h :
  MultisigsCollector entities = Returns h ->
  exists rows,
    Forall2
      (fun ref row =>
         resolve_system stringifyEntityRef parseEntityRef localeCompare entities
           (List.filter is_multisig entities) ref
         = Returns row)
      (normalizeEntities (system_ref <$> List.filter is_multisig entities)) rows
    /\ sort_by localeCompare (fun a => mret (name (metadata (system a)))) rows = Returns h.
Proof.
  unfold Multisigs.MultisigsCollector, Multisigs.collectSystems.
  rewrite system_refs_Returns. simpl.
  intros (rows & Hrows & H)%bind_Returns. apply mapM_Returns in Hrows.
  by exists rows.
Qed.

(** X14.  The hierarchy is empty exactly when the catalog has no
    multisig deployment; the other entities do not matter. *)
Theorem empty_hierarchy_iff_no_multisig (entities : list Entity) :
  MultisigsCollector entities = Returns [] <-> List.filter is_multisig entities = [].
Proof.
  split.
  - intros (rows & Hrows & Hsort)%MultisigsCollector_Returns.
    apply sort_by_Permutation, Permutation_nil in Hsort. subst rows.
    apply Forall2_nil_inv_r in Hrows.
    destruct (List.filter is_multisig entities) as [|m ms]; [done|].
    assert (system_ref m ∈ normalizeEntities (system_ref <$> m :: ms)) as Hin
      by (apply elem_of_normalizeEntities; left).
    rewrite Hrows in Hin. by apply elem_of_nil in Hin.
  - intros Hnone. unfold Multisigs.MultisigsCollector. by rewrite Hnone.
Qed.

Lemma artifact_of_hierarchy
    (entities : list Entity) (h : list SystemComponents)
    (s : SystemComponents) (c : ComponentMultisigs) (m : MultisigInfo) :
  MultisigsCollector entities = Returns h ->
  s ∈ h -> c ∈ components s -> m ∈ multisigs c ->
  entity m ∈ entities
  /\ is_multisig (entity m) = true
  /\ (exists r,
        r ∈ relations_or_empty (entity m) /\ type r = "apiProvidedBy"
        /\ find_ref entities (Some (targetRef r)) = Some (component c))
  /\ collectSigners entities (entity m) = Returns (signers m).
Proof.
  intros (rows & Hrows & Hsort)%MultisigsCollector_Returns Hs Hc Hm.
  apply sort_by_Permutation in Hsort. rewrite Hsort in Hs.
  destruct (Forall2_elem_of_r _ _ _ _ Hrows Hs) as (ref & _ & Hrow).
  apply resolve_system_Returns in Hrow as (_ & _ & Hcs).
  apply collectComponents_Returns in Hcs as (entries & Hentries & Hsort').
  apply sort_by_Permutation in Hsort'. rewrite Hsort' in Hc.
  destruct (Forall2_elem_of_r _ _ _ _ Hentries Hc) as (r & _ & Hcomponent).
  apply resolve_component_Returns in Hcomponent as (Hfind & _ & Hinfos).
  apply multisigs_of_Returns in Hinfos as [Hentities Hsigners].
  assert (entity m ∈ List.filter (provided_by r) (List.filter is_multisig entities))
    as [[Hin Hms]%filter_In Hprovided]%list_elem_of_In%filter_In.
  { rewrite <- Hentities. by apply list_elem_of_fmap_2. }
  split_and!; [by apply list_elem_of_In|done| |].
  - unfold provided_by in Hprovided.
    apply existsb_exists in Hprovided as (r' & Hr' & [Htype Href]%andb_true_iff).
    apply String.eqb_eq in Htype, Href. exists r'.
    split_and!; [by apply list_elem_of_In|done|by rewrite Href].
  - rewrite Forall_forall in Hsigners. by apply Hsigners.
Qed.

(** X16.  Every artifact of a returned hierarchy is a multisig
    deployment of the catalog that has an [apiProvidedBy] relation to
    the component it is listed under, and its signers are the ones
    [collectSigners] returns for it. *)
Theorem artifacts_are_provided_multisigs
    (entities : list Entity) (h : list SystemComponents)
    (s : SystemComponents) (c : ComponentMultisigs) (m : MultisigInfo) :
  MultisigsCollector entities = Returns h ->
  s ∈ h -> c ∈ components s -> m ∈ multisigs c ->
  entity m ∈ entities
  /\ is_multisig (entity m) = true
  /\ (exists r,
        r ∈ relations_or_empty (entity m) /\ type r = "apiProvidedBy"
        /\ find_ref entities (Some (targetRef r)) = Some (component c))
  /\ collectSigners entities (entity m) = Returns (signers m).
Proof. apply artifact_of_hierarchy. Qed.

(** *** The export *)

Lemma head_split (sep : ascii) (s : string) :
  exists p,
    head (split sep s) = Some p
    /\ has_char sep p = false
    /\ (s = p \/ exists rest, s = p ++ String sep rest).
Proof.
  induction s as [|c s (p & Hhead & Hp & Hs)]; simpl.
  - exists "". split_and!; [done..|by left].
  - destruct (Ascii.eqb c sep) eqn:Hc.
    + apply Ascii.eqb_eq in Hc as ->. exists "". split_and!; [done..|].
      right. by exists s.
    + destruct (split sep s) as [|w ws]; [done|]. simpl in Hhead. injection Hhead as ->.
      exists (String c p). split_and!; [done|simpl; by rewrite Hc, Hp|].
      destruct Hs as [->|[rest ->]]; [by left|]. right. by exists rest.
Qed.

Section ExportedArray.

Variable Json : Type.
Variable spec_multisig : Spec -> option Json.

Local Abbreviation export_of := (export_of Json spec_multisig).
Local Abbreviation collectMultisigs :=
  (collectMultisigs stringifyEntityRef parseEntityRef localeCompare Json spec_multisig).

(** X18.  The [network] of an exported entry is never [undefined]: it is
    the part of the artifact's name before its first dash, and the whole
    name when it has no dash. *)
Theorem network_is_name_up_to_dash (ms : MultisigInfo) :
  exists p,
    network Json (export_of ms) = Some p
    /\ has_char "-" p = false
    /\ (name (metadata (entity ms)) = p
        \/ exists rest, name (metadata (entity ms)) = p ++ String "-" rest).
Proof. apply head_split. Qed.

(** X17.  The export throws exactly what the collector throws, and is
    empty when the catalog has no multisig deployment.  When it is
    returned, each of its entries is made from a multisig deployment of
    the catalog: its name and the [multisig] field of its [spec]. *)
Theorem export_lists_multisigs (entities : list Entity) :
  (forall e, collectMultisigs entities = Throws e <-> MultisigsCollector entities = Throws e)
  /\ (List.filter is_multisig entities = [] -> collectMultisigs entities = Returns [])
  /\ (forall exports,
        collectMultisigs entities = Returns exports ->
        Forall
          (fun x =>
             exists item,
               item ∈ entities /\ is_multisig item = true
               /\ export_name Json x = name (metadata item)
               /\ export_spec Json x = (sp ← spec item; spec_multisig sp))
          exports).
Proof.
  unfold Multisigs.collectMultisigs. split_and!.
  - intros e. destruct (MultisigsCollector entities); simpl; split; intros H;
      try discriminate; by injection H as ->.
  - intros Hnone. unfold Multisigs.MultisigsCollector. by rewrite Hnone.
  - intros exports (h & Hh & [= <-])%bind_Returns.
    apply Forall_forall. intros x (s & Hx & Hs)%list_elem_of_bind.
    apply list_elem_of_bind in Hx as (c & Hx & Hc).
    apply list_elem_of_fmap in Hx as (m & -> & Hm).
    destruct (artifact_of_hierarchy entities h s c m Hh Hs Hc Hm) as (Hin & Hms & _).
    by exists (entity m).
Qed.

End ExportedArray.


Section ConsistentComparator.

Hypothesis localeCompare_total :
  forall a b, (localeCompare a b <= 0)%Z \/ (localeCompare b a <= 0)%Z.
Hypothesis localeCompare_trans :
  forall a b c,
    (localeCompare a b <= 0)%Z -> (localeCompare b c <= 0)%Z -> (localeCompare a c <= 0)%Z.

Lemma has_part_component_test r :
  test_of (has_part_component parseEntityRef) r = true ->
  type r = "hasPart"
  /\ exists p, parseEntityRef (targetRef r) = inr p /\ ref_kind p = "component".
Proof.
  unfold test_of, has_part_component.
  destruct (String.eqb (type r) "hasPart") eqn:Htype; [|done].
  apply String.eqb_eq in Htype.
  destruct (parseEntityRef (targetRef r)) as [e|p]; [done|]. simpl.
  intros Hkind%String.eqb_eq. split; [done|]. by exists p.
Qed.

(** X13.  A returned hierarchy has one system group for each distinct
    [system] reference of the multisig deployments: the group's system
    is the catalog entity with that reference, its title is the entity's
    title, or its name when the title is missing or empty, its
    components are those [collectComponents] returns for it, and the
    groups are in the order of the systems' names. *)
Theorem systems_of_hierarchy (entities : list Entity) (h : list SystemComponents) :
  MultisigsCollector entities = Returns h ->
  (fun s => Some (stringifyEntityRef (system s))) <$> h
    ≡ₚ normalizeEntities (system_ref <$> List.filter is_multisig entities)
  /\ StronglySorted (by_system_name localeCompare) h
  /\ Forall
       (fun s =>
          system s ∈ entities
          /\ sc_title s = or_else (title (metadata (system s))) (name (metadata (system s)))
          /\ collectComponents entities (List.filter is_multisig entities) (Some (system s))
             = Returns (components s))
       h.
Proof.
  intros (rows & Hrows & Hsort)%MultisigsCollector_Returns.
  pose proof (sort_by_Permutation _ _ _ _ Hsort) as Hperm.
  split_and!.
  - rewrite Hperm.
    assert (normalizeEntities (system_ref <$> List.filter is_multisig entities)
            = (fun s => Some (stringifyEntityRef (system s))) <$> rows) as ->; [|done].
    etrans; [symmetry; apply list_fmap_id|]. apply Forall2_fmap_eq.
    eapply Forall2_impl; [exact Hrows|]. intros ref row Hrow.
    apply resolve_system_Returns in Hrow as (Hfind & _).
    by apply find_ref_found in Hfind as [_ ->].
  - apply (sort_by_StronglySorted localeCompare localeCompare_total localeCompare_trans)
      in Hsort.
    eapply StronglySorted_weaken; [|exact Hsort].
    intros a b _ _ Hab. by apply Hab.
  - rewrite Hperm. eapply MatrixMore.Forall2_Forall_right; [exact Hrows|].
    intros ref row (Hfind & Htitle & Hcs)%resolve_system_Returns.
    by apply find_ref_found in Hfind as [Hin _].
Qed.

(** X15.  The components of a system, when they are returned, are the
    catalog entities its [hasPart] relations of kind [component] refer
    to, one group for each relation, in the order of the components'
    names; a group lists all the multisig deployments with an
    [apiProvidedBy] relation to the component, in the order of the
    catalog, whatever system they name themselves. *)
Theorem components_of_system
    (entities ms : list Entity) (sys : Entity) (cs : list ComponentMultisigs) :
  collectComponents entities ms (Some sys) = Returns cs ->
  let parts :=
    List.filter (test_of (has_part_component parseEntityRef)) (relations_or_empty sys) in
  Forall
    (fun r => type r = "hasPart"
              /\ exists p, parseEntityRef (targetRef r) = inr p /\ ref_kind p = "component")
    parts
  /\ exists entries,
       Forall2
         (fun r c =>
            find_ref entities (Some (targetRef r)) = Some (component c)
            /\ cm_title c
               = or_else (title (metadata (component c))) (name (metadata (component c)))
            /\ entity <$> multisigs c = List.filter (provided_by r) ms)
         parts entries
       /\ cs ≡ₚ entries
       /\ StronglySorted (by_component_name localeCompare) cs.
Proof.
  intros (entries & Hentries & Hsort)%collectComponents_Returns parts. split.
  - apply Forall_forall. intros r [_ Hr]%list_elem_of_In%filter_In.
    by apply has_part_component_test.
  - exists entries. split_and!.
    + eapply Forall2_impl; [exact Hentries|].
      intros r c (Hfind & Htitle & Hinfos)%resolve_component_Returns.
      by apply multisigs_of_Returns in Hinfos as [Hinfos _].
    + by apply sort_by_Permutation in Hsort.
    + apply (sort_by_StronglySorted localeCompare localeCompare_total localeCompare_trans)
        in Hsort.
      eapply StronglySorted_weaken; [|exact Hsort].
      intros a b _ _ Hab. by apply Hab.
Qed.

(** X11.  [normalizeEntities] returns every reference of its argument
    once: the strings in the order of [localeCompare], then [undefined]
    if it is among them. *)
Theorem normalizeEntities_sorted_set (refs : list (option string)) :
  NoDup (normalizeEntities refs)
  /\ (forall ref, ref ∈ normalizeEntities refs <-> ref ∈ refs)
  /\ exists sorted,
       normalizeEntities refs
       = ((Some <$> sorted) ++ (if bool_decide (None ∈ refs) then [None] else []))%list
       /\ StronglySorted (cmp_le localeCompare) sorted.
Proof.
  split_and!.
  - apply NoDup_normalizeEntities.
  - intros ref. apply elem_of_normalizeEntities.
  - exists (sort localeCompare (omap id (distinct refs))). split.
    + unfold Multisigs.normalizeEntities. f_equal.
      by rewrite (bool_decide_ext _ _ (elem_of_distinct refs None)).
    + by apply sort_StronglySorted.
Qed.

(** X12.  When no two different strings among the references compare
    equal, the result of [normalizeEntities] depends on the set of the
    references only, not on their order or on repetitions, and
    normalizing twice changes nothing. *)
Theorem normalizeEntities_of_same_set (refs1 refs2 : list (option string)) :
  no_ties localeCompare refs1 ->
  (forall ref, ref ∈ refs1 <-> ref ∈ refs2) ->
  normalizeEntities refs1 = normalizeEntities refs2
  /\ normalizeEntities (normalizeEntities refs1) = normalizeEntities refs1.
Proof.
  assert (forall l1 l2 : list (option string),
            no_ties localeCompare l1 ->
            (forall ref, ref ∈ l1 <-> ref ∈ l2) ->
            normalizeEntities l1 = normalizeEntities l2) as Hset.
  { intros l1 l2 Hties Hsame.
    assert (distinct l1 ≡ₚ distinct l2) as Hu.
    { apply NoDup_Permutation; [apply NoDup_distinct..|].
      intros ref. by rewrite !elem_of_distinct. }
    unfold Multisigs.normalizeEntities. f_equal.
    - f_equal. apply sort_unique; auto; [|by rewrite Hu].
      intros a b Ha%elem_of_omap_distinct Hb%elem_of_omap_distinct. by apply Hties.
    - rewrite (bool_decide_ext (None ∈ distinct l1) (None ∈ distinct l2)); [done|].
      by rewrite Hu. }
  intros Hties Hsame. split; [by apply Hset|].
  apply Hset.
  - intros a b Ha%elem_of_normalizeEntities Hb%elem_of_normalizeEntities. by apply Hties.
  - intros ref. apply elem_of_normalizeEntities.
Qed.

End ConsistentComparator.

End CatalogModel.

Local Abbreviation ref_of := Instances.stringifyEntityRef.
Local Abbreviation parse := Instances.parseEntityRef.
Local Abbreviation cmp := Instances.localeCompare.

Lemma systems_of_hierarchy_witness :
  let entities := [S1; C1; A1; U1; O1; G1] in
  let h := hierarchy [info A1 (Some O1)] in
  (fun s => Some (ref_of (system s))) <$> h
    ≡ₚ normalizeEntities cmp (system_ref <$> List.filter is_multisig entities)
  /\ StronglySorted (by_system_name cmp) h
  /\ Forall
       (fun s =>
          system s ∈ entities
          /\ sc_title s = or_else (title (metadata (system s))) (name (metadata (system s)))
          /\ collectComponents ref_of parse cmp entities (List.filter is_multisig entities)
               (Some (system s))
             = Returns (components s))
       h.
Proof.
  apply (systems_of_hierarchy ref_of parse cmp localeCompare_total localeCompare_trans
           [S1; C1; A1; U1; O1; G1]).
  reflexivity.
Defined.

Lemma components_of_system_witness :
  let entities := [S1; C1; A1; A2; U1; O1; G1] in
  let cs := [ {| cm_title := "c1"; component := C1;
                 multisigs := [info A1 (Some O1); info A2 (Some O1)] |} ] in
  let parts := List.filter (test_of (has_part_component parse)) (relations_or_empty S1) in
  Forall
    (fun r => type r = "hasPart"
              /\ exists p, parse (targetRef r) = inr p /\ ref_kind p = "component")
    parts
  /\ exists entries,
       Forall2
         (fun r c =>
            find_ref ref_of entities (Some (targetRef r)) = Some (component c)
            /\ cm_title c
               = or_else (title (metadata (component c))) (name (metadata (component c)))
            /\ entity <$> multisigs c = List.filter (provided_by r) [A1; A2])
         parts entries
       /\ cs ≡ₚ entries
       /\ StronglySorted (by_component_name cmp) cs.
Proof.
  apply (components_of_system ref_of parse cmp localeCompare_total localeCompare_trans
           [S1; C1; A1; A2; U1; O1; G1] [A1; A2] S1).
  reflexivity.
Defined.

Lemma artifacts_are_provided_multisigs_witness :
  let entities := [S1; C1; A1; U1; O1; G1] in
  A1 ∈ entities
  /\ is_multisig A1 = true
  /\ (exists r,
        r ∈ relations_or_empty A1 /\ type r = "apiProvidedBy"
        /\ find_ref ref_of entities (Some (targetRef r)) = Some C1)
  /\ collectSigners ref_of parse cmp entities A1
     = Returns [ {| signer := U1; owner := Some O1 |} ].
Proof.
  apply (artifacts_are_provided_multisigs ref_of parse cmp [S1; C1; A1; U1; O1; G1]
           (hierarchy [info A1 (Some O1)])
           {| sc_title := "s1"; system := S1;
              components := [ {| cm_title := "c1"; component := C1;
                                 multisigs := [info A1 (Some O1)] |} ] |}
           {| cm_title := "c1"; component := C1; multisigs := [info A1 (Some O1)] |}
           (info A1 (Some O1))).
  - reflexivity.
  - left.
  - left.
  - left.
Defined.

(** X17: the export of the scenario, when the [multisig] field of every
    [spec] is the text [2-of-3]. *)
Lemma export_lists_multisigs_witness :
  Forall
    (fun x =>
       exists item,
         item ∈ [S1; C1; A1; U1; O1; G1] /\ is_multisig item = true
         /\ export_name string x = name (metadata item)
         /\ export_spec string x = (sp ← spec item; Some "2-of-3"))
    [ {| export_name := "a1"; network := Some "a1"; export_spec := Some "2-of-3" |} ].
Proof.
  apply (export_lists_multisigs ref_of parse cmp string (fun _ => Some "2-of-3")
           [S1; C1; A1; U1; O1; G1]).
  reflexivity.
Defined.

(** X19: the scenario, where every reference resolves. *)
Lemma collectSigners_returns_witness :
  exists rows, collectSigners ref_of parse cmp [S1; C1; A1; U1; O1; G1] A1 = Returns rows.
Proof.
  apply (collectSigners_returns ref_of parse cmp [S1; C1; A1; U1; O1; G1] A1).
  - repeat constructor; intros _; eexists; reflexivity.
  - constructor; [|constructor].
    exists U1, {| spec_type := None; spec_system := None;
                  spec_owner := Some "user:default/o1" |}.
    split_and!; [reflexivity..|]. by exists O1.
Defined.

Lemma normalizeEntities_sorted_set_witness :
  let refs := [Some "system:default/s2"; None; Some "system:default/s1";
               Some "system:default/s2"] in
  NoDup (normalizeEntities Instances.localeCompare refs)
  /\ (forall ref, ref ∈ normalizeEntities Instances.localeCompare refs <-> ref ∈ refs)
  /\ exists sorted,
       normalizeEntities Instances.localeCompare refs
       = ((Some <$> sorted) ++ (if bool_decide (None ∈ refs) then [None] else []))%list
       /\ StronglySorted (cmp_le Instances.localeCompare) sorted.
Proof.
  apply (normalizeEntities_sorted_set Instances.localeCompare
           localeCompare_total localeCompare_trans).
Defined.

Lemma normalizeEntities_of_same_set_witness :
  normalizeEntities Instances.localeCompare [Some "b"; Some "a"; Some "b"]
  = normalizeEntities Instances.localeCompare [Some "a"; Some "b"]
  /\ normalizeEntities Instances.localeCompare
       (normalizeEntities Instances.localeCompare [Some "b"; Some "a"; Some "b"])
     = normalizeEntities Instances.localeCompare [Some "b"; Some "a"; Some "b"].
Proof.
  apply (normalizeEntities_of_same_set Instances.localeCompare
           localeCompare_total localeCompare_trans).
  - intros a b _ _. apply localeCompare_antisym.
  - intros ref. rewrite !elem_of_cons. tauto.
Defined.

End MultisigsMore.
